(** * A shallow embedding of [interpreterv1.py]

    The tree-walking interpreter of the Brewin teaching language: one
    [main] function whose body declares variables, assigns to them and
    calls the two built-ins [print] and [inputi].

    The interpreter object is an explicit state ([Interpreter]) threaded
    through a small state-and-exception monad [M]: a Python exception
    leaves the mutated object behind, so a raising computation still
    returns the state it reached. *)

From Stdlib Require Import ZArith Ascii String List Lia.
From stdpp Require Import base option list strings gmap pretty.

Local Open Scope Z_scope.
Local Open Scope string_scope.
Local Open Scope list_scope.

(** ** Data model *)

(** Runtime values: what [eval] can return.  Python's [None] is the
    null sentinel. *)
Inductive value : Type :=
| VNone
| VInt (n : Z)
| VStr (s : string).

(** The operator tag of an arithmetic node: [elem_type] is ["+"] or ["-"]. *)
Inductive arith : Type := Plus | Minus.

(** AST nodes ([Element]s of the parser), one constructor per
    [elem_type] the interpreter dispatches on, with the attributes that
    the interpreter reads with [.get(...)]; [Other_node] is a node of any
    other kind. *)
Inductive Element : Type :=
| Int_node (val : Z)                               (* INT_NODE *)
| String_node (val : string)                       (* STRING_NODE *)
| Qualified_name_node (name : string)              (* QUALIFIED_NAME_NODE *)
| Fcall_node (name : string) (args : list Element) (* FCALL_NODE *)
| Arith_node (op : arith) (op1 op2 : Element)      (* "+" and "-" *)
| Var_def_node (name : string)                     (* VAR_DEF_NODE *)
| Assignment_node (var : string) (expression : Element) (* ASSIGNMENT_NODE *)
| Other_node (elem_type : string).

(** A function definition node: its name, its formal parameters and its
    body. *)
Record Func : Type := mkFunc {
  func_name : string;
  func_args : list string;
  statements : list Element
}.

(** The program node: [prog.get("functions") or []]. *)
Record Program : Type := mkProgram {
  functions : list Func
}.

(** The two error kinds the interpreter reports through
    [super().error]. *)
Inductive ErrorType : Type := TYPE_ERROR | NAME_ERROR.

(** What a run can raise: an interpreter error (kind and description),
    or an exception of the host language itself (from [int(...)]). *)
Inductive exn : Type :=
| InterpreterError (error_type : ErrorType) (description : string)
| HostError (what : string).

(** The interpreter object.  [vars] is the environment; [output_log]
    and [inp] are the two channels of the base class; the counters are
    those of [__init__].  The [trace_output] flag only echoes statements
    on the host console and [debug_counter] is never touched: both are
    left out. *)
Record Interpreter : Type := mkInterpreter {
  vars : gmap string value;
  output_log : list string;
  inp : list string;
  statement_count : nat;
  variable_count : nat;
  is_running : bool
}.

(** [Interpreter(inp=tokens)]: the object [__init__] builds. *)
Definition new_Interpreter (tokens : list string) : Interpreter :=
  mkInterpreter ∅ [] tokens 0 0 false.

Definition set_vars (f : gmap string value → gmap string value)
    (s : Interpreter) : Interpreter :=
  mkInterpreter (f (vars s)) (output_log s) (inp s)
    (statement_count s) (variable_count s) (is_running s).

Definition set_output_log (f : list string → list string)
    (s : Interpreter) : Interpreter :=
  mkInterpreter (vars s) (f (output_log s)) (inp s)
    (statement_count s) (variable_count s) (is_running s).

Definition set_inp (f : list string → list string)
    (s : Interpreter) : Interpreter :=
  mkInterpreter (vars s) (output_log s) (f (inp s))
    (statement_count s) (variable_count s) (is_running s).

Definition set_statement_count (f : nat → nat)
    (s : Interpreter) : Interpreter :=
  mkInterpreter (vars s) (output_log s) (inp s)
    (f (statement_count s)) (variable_count s) (is_running s).

Definition set_variable_count (f : nat → nat)
    (s : Interpreter) : Interpreter :=
  mkInterpreter (vars s) (output_log s) (inp s)
    (statement_count s) (f (variable_count s)) (is_running s).

Definition set_is_running (b : bool) (s : Interpreter) : Interpreter :=
  mkInterpreter (vars s) (output_log s) (inp s)
    (statement_count s) (variable_count s) b.

(** ** The monad of interpreter methods *)

Inductive outcome (A : Type) : Type :=
| Returns (a : A)
| Raises (e : exn).
Arguments Returns {A} a.
Arguments Raises {A} e.

Definition M (A : Type) : Type := Interpreter → outcome A * Interpreter.

Definition ret {A} (a : A) : M A := λ s, (Returns a, s).

Definition bind {A B} (m : M A) (k : A → M B) : M B :=
  λ s, match m s with
       | (Returns a, s') => k a s'
       | (Raises e, s') => (Raises e, s')
       end.

Definition raise {A} (e : exn) : M A := λ s, (Raises e, s).

Definition modify (f : Interpreter → Interpreter) : M unit :=
  λ s, (Returns tt, f s).

Definition gets {A} (f : Interpreter → A) : M A := λ s, (Returns (f s), s).

Notation "x <- m ;; k" := (bind m (λ x, k))
  (at level 100, m at next level, right associativity, only parsing).
Notation "m ;; k" := (bind m (λ _, k))
  (at level 100, right associativity, only parsing).

(** [if cond: body] with no [else]. *)
Definition when (cond : bool) (body : M unit) : M unit :=
  if cond then body else ret tt.

(** [for x in xs: body(x)]. *)
Fixpoint for_each {A} (body : A → M unit) (xs : list A) : M unit :=
  match xs with
  | [] => ret tt
  | x :: rest => body x ;; for_each body rest
  end.

(** ** The base class and the host language *)

(** Modelled from the spec: [InterpreterBase.error] (module [intbase] is
    not among the sources) aborts the run at once and notifies the caller
    with the error kind and a descriptive message. *)
Definition error {A} (error_type : ErrorType) (description : string) : M A :=
  raise (InterpreterError error_type description).

(** Modelled from the spec: [InterpreterBase.output] writes one line of
    text to the output channel. *)
Definition output (line : string) : M unit :=
  modify (set_output_log (λ log, log ++ [line])).

(** Modelled from the spec: [InterpreterBase.get_input] yields the next
    token of the input channel and consumes it.  The spec says nothing
    of an exhausted channel; here the read then yields no token. *)
Definition get_input : M (option string) :=
  λ s, match inp s with
       | [] => (Returns None, s)
       | token :: rest => (Returns (Some token), set_inp (λ _, rest) s)
       end.

(** Python's [str(v)] on a runtime value: the text it returns.  For an
    integer of more than [max_str_digits] digits the host raises
    [ValueError] instead of returning a text; that path is not modelled,
    and what is proved about the text of integers is stated for the
    values [within_str_limit]. *)
Definition str (v : value) : string :=
  match v with
  | VNone => "None"
  | VInt n => pretty n
  | VStr s => s
  end.

(** The host's limit on conversions between integers and decimal text
    ([sys.int_info.default_max_str_digits]): both [str(n)] and [int(text)]
    raise [ValueError] past this number of digits. *)
Definition max_str_digits : Z := 4300.

(** The values whose [str] the host returns: every string and [None], and
    the integers of at most [max_str_digits] digits. *)
Definition within_str_limit (v : value) : Prop :=
  match v with
  | VInt n => (Z.abs n < 10 ^ max_str_digits)%Z
  | _ => True
  end.

(** [isinstance(v, int)]. *)
Definition isinstance_int (v : value) : bool :=
  match v with VInt _ => true | _ => false end.

(** Python's [int(text)], as [py_int] below.  A text is a sequence of
    code points below 256.  White space around the numeral is dropped, a
    sign may come first, and the rest is decimal digits, a single
    underscore allowed between two digits; a numeral of more than
    [max_str_digits] digits is refused.  [None] stands for [ValueError]. *)

(** The white space [int] skips: tab to carriage return, the space, and
    the two code points above 127 that are white space, next line and
    no-break space. *)
Definition is_space (c : ascii) : bool :=
  match c with
  | " "%char | "009"%char | "010"%char | "011"%char | "012"%char
  | "013"%char | "133"%char | "160"%char => true
  | _ => false
  end.

Definition digit_of (c : ascii) : option Z :=
  let n := Z.of_nat (nat_of_ascii c) in
  if (48 <=? n)%Z && (n <=? 57)%Z then Some (n - 48) else None.

Fixpoint lstrip (s : string) : string :=
  match s with
  | String c rest => if is_space c then lstrip rest else s
  | EmptyString => s
  end.

Fixpoint rstrip (s : string) : string :=
  match s with
  | String c rest =>
      match rstrip rest with
      | EmptyString => if is_space c then EmptyString else String c EmptyString
      | rest' => String c rest'
      end
  | EmptyString => s
  end.

Fixpoint int_digits (acc : Z) (after_digit : bool) (s : string) : option Z :=
  match s with
  | EmptyString => if after_digit then Some acc else None
  | String c rest =>
      match digit_of c with
      | Some d => int_digits (10 * acc + d) true rest
      | None =>
          if Ascii.eqb c "_" && after_digit then int_digits acc false rest
          else None
      end
  end.

(** The number of digits in a numeral, underscores left out. *)
Fixpoint count_digits (s : string) : Z :=
  match s with
  | EmptyString => 0
  | String c rest =>
      (if digit_of c then 1 else 0) + count_digits rest
  end.

Definition py_int (text : string) : option Z :=
  let numeral := rstrip (lstrip text) in
  if (max_str_digits <? count_digits numeral)%Z then None
  else
    match numeral with
    | String "-" digits => option_map Z.opp (int_digits 0 false digits)
    | String "+" digits => int_digits 0 false digits
    | digits => int_digits 0 false digits
    end.

(** [int(super().get_input())]: a missing token ([get_input] then
    returns [None]) makes [int] raise [TypeError], and a token that is
    not a numeral makes it raise [ValueError]. *)
Definition read_int : M value :=
  token <- get_input ;;
  match token with
  | None => raise (HostError "TypeError")
  | Some text =>
      match py_int text with
      | Some n => ret (VInt n)
      | None => raise (HostError "ValueError")
      end
  end.

(** ** The interpreter *)

(** [find_main]: the first function whose name is ["main"]. *)
Definition find_main (prog : Program) : option Func :=
  List.find (λ func, bool_decide (func_name func = "main")) (functions prog).

(** ["".join(str(self.eval(a)) for a in args)]. *)
Definition join_str (eval : Element → M value) : list Element → M string :=
  fix go (args : list Element) : M string :=
    match args with
    | [] => ret ""
    | a :: rest =>
        v <- eval a ;;
        tail <- go rest ;;
        ret (str v +:+ tail)
    end.

(** The body of [call_func], over the evaluator it calls back;
    [func_name] and [args] are [call.get("name")] and
    [call.get("args") or []]. *)
Definition call_func_body (eval : Element → M value)
    (func_name : string) (args : list Element) : M value :=
  if decide (func_name = "print") then
    output_str <- join_str eval args ;;
    output output_str ;;
    ret VNone
  else if decide (func_name = "inputi") then
    when (1 <? length args)%nat
      (error NAME_ERROR "No inputi() function found that takes > 1 parameter") ;;
    match args with
    | [a] => v <- eval a ;; output (str v)
    | _ => ret tt
    end ;;
    read_int
  else
    error NAME_ERROR ("Function " +:+ func_name +:+ " has not been defined").

(** [eval]: dispatch on the kind of the node. *)
Fixpoint eval (expr : Element) : M value :=
  match expr with
  | Int_node val => ret (VInt val)
  | String_node val => ret (VStr val)
  | Qualified_name_node var_name =>
      env <- gets vars ;;
      match env !! var_name with
      | None =>
          error NAME_ERROR ("Variable " +:+ var_name +:+ " has not been defined")
      | Some v => ret v
      end
  | Fcall_node func_name args => call_func_body eval func_name args
  | Arith_node op op1 op2 =>
      left_val <- eval op1 ;;
      right_val <- eval op2 ;;
      if negb (isinstance_int left_val) || negb (isinstance_int right_val) then
        error TYPE_ERROR "Incompatible types for arithmetic operation"
      else
        match left_val, right_val with
        | VInt a, VInt b =>           (* neither is None *)
            match op with
            | Plus => ret (VInt (a + b))
            | Minus => ret (VInt (a - b))
            end
        | _, _ => ret VNone           (* falls to the last [return None] *)
        end
  | _ => ret VNone
  end.

(** [call_func], on the name and the arguments of the call node. *)
Definition call_func (func_name : string) (args : list Element) : M value :=
  call_func_body eval func_name args.

(** [assign], on the [var] and [expression] attributes of the node. *)
Definition assign (var_name : string) (expr : Element) : M unit :=
  env <- gets vars ;;
  when (bool_decide (env !! var_name = None))
    (error NAME_ERROR ("Variable " +:+ var_name +:+ " has not been defined")) ;;
  val <- eval expr ;;
  modify (set_vars (λ env, <[var_name := val]> env)).

(** [def_var], on the [name] attribute of the node. *)
Definition def_var (var_name : string) : M unit :=
  env <- gets vars ;;
  when (bool_decide (is_Some (env !! var_name)))
    (error NAME_ERROR ("Variable " +:+ var_name +:+ " defined more than once")) ;;
  modify (set_vars (λ env, <[var_name := VNone]> env)) ;;
  modify (set_variable_count S).

(** [run_stmt]. *)
Definition run_stmt (stmt : Element) : M unit :=
  modify (set_statement_count S) ;;
  match stmt with
  | Var_def_node var_name => def_var var_name
  | Assignment_node var_name expr => assign var_name expr
  | _ => _ <- eval stmt ;; ret tt
  end.

(** [run], on the tree that [parse_program] returns. *)
Definition run (ast : Program) : M unit :=
  match find_main ast with
  | None => error NAME_ERROR "No main() function was found"
  | Some main =>
      modify (set_is_running true) ;;
      for_each run_stmt (statements main) ;;
      modify (set_is_running false)
  end.

(** A program made of one [main] without parameters, and what a fresh
    interpreter makes of it: how the run ended and the lines written. *)
Definition main_program (body : list Element) : Program :=
  mkProgram [mkFunc "main" [] body].

Definition output_of (body : list Element) (tokens : list string) :
    outcome unit * list string :=
  let r := run (main_program body) (new_Interpreter tokens) in
  (r.1, output_log r.2).

(** ** Specification vocabulary *)

(** The statements of a list run one after the other on the same
    interpreter object, each returning normally. *)
Inductive runs_in_order : list Element → Interpreter → Interpreter → Prop :=
| runs_nil s : runs_in_order [] s s
| runs_cons stmt rest s s1 s2 :
    run_stmt stmt s = (Returns tt, s1) →
    runs_in_order rest s1 s2 →
    runs_in_order (stmt :: rest) s s2.

(** The expressions of a list are evaluated from left to right on the
    same interpreter object, each returning a value. *)
Inductive evaluates_in_order :
    list Element → Interpreter → list value → Interpreter → Prop :=
| evaluates_nil s : evaluates_in_order [] s [] s
| evaluates_cons a rest s v s1 vs s2 :
    eval a s = (Returns v, s1) →
    evaluates_in_order rest s1 vs s2 →
    evaluates_in_order (a :: rest) s (v :: vs) s2.

(** The variable a statement declares or assigns, if any. *)
Definition target (stmt : Element) : option string :=
  match stmt with
  | Var_def_node var_name => Some var_name
  | Assignment_node var_name _ => Some var_name
  | _ => None
  end.

(** The kinds [eval] has a branch for. *)
Definition is_expression (expr : Element) : bool :=
  match expr with
  | Int_node _ | String_node _ | Qualified_name_node _
  | Fcall_node _ _ | Arith_node _ _ _ => true
  | _ => false
  end.

(** What evaluating an expression may do to the interpreter object:
    write lines, consume input tokens, and nothing else. *)
Record frame (s s' : Interpreter) : Prop := mkFrame {
  frame_vars : vars s' = vars s;
  frame_output_log : output_log s `prefix_of` output_log s';
  frame_inp : inp s' `suffix_of` inp s;
  frame_statement_count : statement_count s' = statement_count s;
  frame_variable_count : variable_count s' = variable_count s;
  frame_is_running : is_running s' = is_running s
}.

Definition framed {A} (m : M A) : Prop := ∀ s, frame s (m s).2.

(** ** Statistics *)

(** The dictionary [get_stats] returns, one field per key; the keys
    ['is_running'] and ['variable_count'] are the fields [stats_is_running]
    and [stats_variable_count]. *)
Record Stats : Type := mkStats {
  statements_executed : nat;
  variables_created : nat;
  stats_is_running : bool;
  stats_variable_count : nat
}.

(** [get_stats]; ['variable_count'] is [len(self.vars)]. *)
Definition get_stats (s : Interpreter) : Stats :=
  mkStats (statement_count s) (variable_count s) (is_running s)
    (size (vars s)).

(** [reset_stats]. *)
Definition reset_stats : M unit :=
  modify (set_statement_count (λ _, 0%nat)) ;;
  modify (set_variable_count (λ _, 0%nat)).

(** ** More specification vocabulary *)

(** The node, or a node below it, is a call of [inputi]. *)
Fixpoint calls_inputi (expr : Element) : bool :=
  match expr with
  | Fcall_node func_name args =>
      bool_decide (func_name = "inputi") || existsb calls_inputi args
  | Arith_node _ op1 op2 => calls_inputi op1 || calls_inputi op2
  | Assignment_node _ expression => calls_inputi expression
  | _ => false
  end.

(** The node, or a node below it, is a call. *)
Fixpoint has_call (expr : Element) : bool :=
  match expr with
  | Fcall_node _ _ => true
  | Arith_node _ op1 op2 => has_call op1 || has_call op2
  | Assignment_node _ expression => has_call expression
  | _ => false
  end.

(** The integer an expression made of integer literals, [+] and [-]
    stands for. *)
Fixpoint literal_value (expr : Element) : option Z :=
  match expr with
  | Int_node val => Some val
  | Arith_node op op1 op2 =>
      match literal_value op1, literal_value op2 with
      | Some a, Some b =>
          Some match op with Plus => a + b | Minus => a - b end
      | _, _ => None
      end
  | _ => None
  end.

(** The statement is a declaration. *)
Definition is_var_def (stmt : Element) : bool :=
  match stmt with Var_def_node _ => true | _ => false end.

(** A method that reads nothing from the input. *)
Definition reads_nothing {A} (m : M A) : Prop :=
  ∀ s, inp (m s).2 = inp s.

(** How deep the nodes of an expression nest: the number of nested calls
    of [eval] that evaluating it takes. *)
Fixpoint depth (expr : Element) : nat :=
  match expr with
  | Fcall_node _ args => S (foldr (λ a d, Nat.max (depth a) d) 0%nat args)
  | Arith_node _ op1 op2 => S (Nat.max (depth op1) (depth op2))
  | Assignment_node _ expression => S (depth expression)
  | _ => 1%nat
  end.

(** A nesting depth well inside what the host's default recursion limit
    of 1000 frames leaves to [eval]. *)
Definition safe_depth : nat := 500.

(** A method that leaves the interpreter as it was and looks at nothing
    of it but the environment. *)
Definition only_reads_vars {A} (m : M A) : Prop :=
  ∀ s, (m s).2 = s ∧ ∀ s2, vars s2 = vars s → (m s2).1 = (m s).1.

(** Unfolds the monad under the statement methods. *)
Ltac unfold_monad :=
  unfold run_stmt, def_var, assign, error, when, output, bind, ret, raise,
    modify, gets; simpl.

(** ** Induction over nodes *)

Lemma Element_nested_ind (P : Element → Prop) :
  (∀ val, P (Int_node val)) →
  (∀ val, P (String_node val)) →
  (∀ name, P (Qualified_name_node name)) →
  (∀ name args, Forall P args → P (Fcall_node name args)) →
  (∀ op op1 op2, P op1 → P op2 → P (Arith_node op op1 op2)) →
  (∀ name, P (Var_def_node name)) →
  (∀ var expression, P expression → P (Assignment_node var expression)) →
  (∀ elem_type, P (Other_node elem_type)) →
  ∀ e, P e.
Proof.
  intros Hint Hstr Hname Hcall Harith Hdef Hassign Hother.
  fix IH 1. intros [val|val|name|name args|op op1 op2|name|var expression|ty].
  - apply Hint.
  - apply Hstr.
  - apply Hname.
  - apply Hcall. induction args as [|a args IHargs]; constructor.
    + apply IH.
    + apply IHargs.
  - apply Harith; apply IH.
  - apply Hdef.
  - apply Hassign, IH.
  - apply Hother.
Qed.

(** ** The frame of expression evaluation *)

Lemma frame_refl s : frame s s.
Proof. by constructor. Qed.

Lemma frame_trans s1 s2 s3 : frame s1 s2 → frame s2 s3 → frame s1 s3.
Proof.
  intros [] []. constructor; try congruence.
  - by etrans.
  - by etrans.
Qed.

Lemma framed_ret {A} (a : A) : framed (ret a).
Proof. intros s. apply frame_refl. Qed.

Lemma framed_raise {A} e : framed (@raise A e).
Proof. intros s. apply frame_refl. Qed.

Lemma framed_gets {A} (f : Interpreter → A) : framed (gets f).
Proof. intros s. apply frame_refl. Qed.

Lemma framed_bind {A B} (m : M A) (k : A → M B) :
  framed m → (∀ a, framed (k a)) → framed (bind m k).
Proof.
  intros Hm Hk s. unfold bind. specialize (Hm s).
  destruct (m s) as [[a|e] s1]; simpl in *; [|done].
  eapply frame_trans; [done|apply Hk].
Qed.

Lemma framed_when cond body : framed body → framed (when cond body).
Proof. intros Hbody. destruct cond; [done|apply framed_ret]. Qed.

Lemma framed_output line : framed (output line).
Proof.
  intros s. constructor; simpl; try done. by apply prefix_app_r.
Qed.

Lemma framed_get_input : framed get_input.
Proof.
  intros s. unfold get_input. destruct (inp s) as [|token rest] eqn:Hinp.
  - apply frame_refl.
  - constructor; simpl; try done. rewrite Hinp. by apply suffix_cons_r.
Qed.

Lemma framed_read_int : framed read_int.
Proof.
  apply framed_bind; [apply framed_get_input|].
  intros [text|]; [|apply framed_raise].
  destruct (py_int text); [apply framed_ret|apply framed_raise].
Qed.

Lemma framed_join_str (ev : Element → M value) args :
  Forall (λ a, framed (ev a)) args → framed (join_str ev args).
Proof.
  induction 1 as [|a rest Ha _ IH]; simpl.
  - apply framed_ret.
  - apply framed_bind; [done|]. intros v.
    apply framed_bind; [done|]. intros tail. apply framed_ret.
Qed.

Lemma framed_call_func_body (ev : Element → M value) func_name args :
  Forall (λ a, framed (ev a)) args → framed (call_func_body ev func_name args).
Proof.
  intros Hargs. unfold call_func_body.
  destruct (decide (func_name = "print")).
  { apply framed_bind; [by apply framed_join_str|]. intros line.
    apply framed_bind; [apply framed_output|]. intros _. apply framed_ret. }
  destruct (decide (func_name = "inputi")); [|apply framed_raise].
  apply framed_bind; [apply framed_when, framed_raise|]. intros _.
  apply framed_bind; [|intros _; apply framed_read_int].
  destruct Hargs as [|a rest Ha Hrest]; [apply framed_ret|].
  destruct rest; [|apply framed_ret].
  apply framed_bind; [done|]. intros v. apply framed_output.
Qed.

Lemma framed_eval expr : framed (eval expr).
Proof.
  induction expr as [val|val|name|name args IH|op op1 op2 IH1 IH2|name|var e _|ty]
    using Element_nested_ind; simpl; try apply framed_ret.
  - apply framed_bind; [apply framed_gets|]. intros env.
    destruct (env !! name); [apply framed_ret|apply framed_raise].
  - by apply framed_call_func_body.
  - apply framed_bind; [done|]. intros left_val.
    apply framed_bind; [done|]. intros right_val.
    destruct (negb _ || negb _); [apply framed_raise|].
    destruct left_val, right_val, op; apply framed_ret.
Qed.

(** ** Unfolding [eval] *)

Lemma eval_qualified_name var_name s :
  eval (Qualified_name_node var_name) s =
  match vars s !! var_name with
  | None =>
      (Raises (InterpreterError NAME_ERROR
                 ("Variable " +:+ var_name +:+ " has not been defined")), s)
  | Some v => (Returns v, s)
  end.
Proof. simpl. unfold bind, gets. by destruct (vars s !! var_name). Qed.

Lemma eval_fcall func_name args :
  eval (Fcall_node func_name args) = call_func func_name args.
Proof. done. Qed.

Lemma eval_arith op op1 op2 s :
  eval (Arith_node op op1 op2) s =
  match eval op1 s with
  | (Raises e, s1) => (Raises e, s1)
  | (Returns left_val, s1) =>
      match eval op2 s1 with
      | (Raises e, s2) => (Raises e, s2)
      | (Returns right_val, s2) =>
          match left_val, right_val with
          | VInt a, VInt b =>
              (Returns (VInt match op with Plus => a + b | Minus => a - b end),
               s2)
          | _, _ =>
              (Raises (InterpreterError TYPE_ERROR
                         "Incompatible types for arithmetic operation"), s2)
          end
      end
  end.
Proof.
  simpl. unfold bind.
  destruct (eval op1 s) as [[left_val|e] s1]; [|done].
  destruct (eval op2 s1) as [[right_val|e] s2]; [|done].
  by destruct left_val, right_val, op.
Qed.

(** ** Statements *)

Lemma run_stmt_def_var var_name s :
  run_stmt (Var_def_node var_name) s =
  match vars s !! var_name with
  | Some _ =>
      (Raises (InterpreterError NAME_ERROR
                 ("Variable " +:+ var_name +:+ " defined more than once")),
       set_statement_count S s)
  | None =>
      (Returns tt,
       set_variable_count S
         (set_vars (λ env, <[var_name := VNone]> env)
            (set_statement_count S s)))
  end.
Proof.
  unfold_monad. destruct (vars s !! var_name) as [v|] eqn:Hv.
  - by rewrite bool_decide_eq_true_2.
  - rewrite bool_decide_eq_false_2; [done|]. by intros [? ?].
Qed.

Lemma run_stmt_assign var_name expr s :
  run_stmt (Assignment_node var_name expr) s =
  match vars s !! var_name with
  | None =>
      (Raises (InterpreterError NAME_ERROR
                 ("Variable " +:+ var_name +:+ " has not been defined")),
       set_statement_count S s)
  | Some _ =>
      match eval expr (set_statement_count S s) with
      | (Returns val, s1) =>
          (Returns tt, set_vars (λ env, <[var_name := val]> env) s1)
      | (Raises e, s1) => (Raises e, s1)
      end
  end.
Proof.
  unfold_monad. destruct (vars s !! var_name) as [v|] eqn:Hv.
  - rewrite bool_decide_eq_false_2; [|done].
    by destruct (eval expr _) as [[val|e] s1].
  - by rewrite bool_decide_eq_true_2.
Qed.

Lemma run_stmt_expression stmt s :
  target stmt = None →
  run_stmt stmt s =
  match eval stmt (set_statement_count S s) with
  | (Returns _, s1) => (Returns tt, s1)
  | (Raises e, s1) => (Raises e, s1)
  end.
Proof. by destruct stmt. Qed.

Lemma run_stmt_statement_count stmt s :
  statement_count (run_stmt stmt s).2 = S (statement_count s).
Proof.
  destruct stmt as [val|val|name|name args|op op1 op2|name|var expression|ty];
    try (rewrite run_stmt_expression by done;
    match goal with |- context [eval ?e ?s0] =>
      pose proof (frame_statement_count _ _ (framed_eval e s0));
      by destruct (eval e s0) as [[?|?] ?] end).
  - rewrite run_stmt_def_var. by destruct (vars s !! name).
  - rewrite run_stmt_assign. destruct (vars s !! var); [|done].
    pose proof (frame_statement_count _ _
                  (framed_eval expression (set_statement_count S s))).
    by destruct (eval expression _) as [[?|?] ?].
Qed.

Lemma run_stmt_output_log stmt s :
  output_log s `prefix_of` output_log (run_stmt stmt s).2.
Proof.
  destruct stmt as [val|val|name|name args|op op1 op2|name|var expression|ty];
    try (rewrite run_stmt_expression by done;
    match goal with |- context [eval ?e ?s0] =>
      pose proof (frame_output_log _ _ (framed_eval e s0));
      by destruct (eval e s0) as [[?|?] ?] end).
  - rewrite run_stmt_def_var. by destruct (vars s !! name).
  - rewrite run_stmt_assign. destruct (vars s !! var); [|done].
    pose proof (frame_output_log _ _
                  (framed_eval expression (set_statement_count S s))).
    by destruct (eval expression _) as [[?|?] ?].
Qed.

(** What one statement does to the environment. *)
Lemma run_stmt_vars stmt s :
  vars (run_stmt stmt s).2 = vars s ∨
  (∃ var_name, stmt = Var_def_node var_name ∧ vars s !! var_name = None ∧
     vars (run_stmt stmt s).2 = <[var_name := VNone]> (vars s)) ∨
  (∃ var_name expr val, stmt = Assignment_node var_name expr ∧
     is_Some (vars s !! var_name) ∧
     vars (run_stmt stmt s).2 = <[var_name := val]> (vars s)).
Proof.
  destruct stmt as [val|val|name|name args|op op1 op2|name|var expression|ty];
    try (left; rewrite run_stmt_expression by done;
    match goal with |- context [eval ?e ?s0] =>
      pose proof (frame_vars _ _ (framed_eval e s0));
      by destruct (eval e s0) as [[?|?] ?] end).
  - rewrite run_stmt_def_var. destruct (vars s !! name) eqn:Hv; [by left|].
    right; left. by exists name.
  - rewrite run_stmt_assign. destruct (vars s !! var) eqn:Hv; [|by left].
    pose proof (frame_vars _ _
                  (framed_eval expression (set_statement_count S s))) as Hf.
    destruct (eval expression _) as [[val|e] s1]; simpl in *; [|by left].
    right; right. exists var, expression, val. by rewrite Hf.
Qed.

Lemma for_each_vars_dom stmts s :
  dom (vars s) ⊆ dom (vars (for_each run_stmt stmts s).2).
Proof.
  revert s. induction stmts as [|stmt rest IH]; intros s; simpl; [done|].
  unfold bind. pose proof (run_stmt_vars stmt s) as Hstep.
  assert (dom (vars s) ⊆ dom (vars (run_stmt stmt s).2)) as Hsub.
  { destruct Hstep as [->|[(x & _ & _ & ->)|(x & e & val & _ & _ & ->)]];
      [done|set_solver..]. }
  destruct (run_stmt stmt s) as [[[]|e] s1]; simpl in *; [|done].
  etrans; [exact Hsub|apply IH].
Qed.

Lemma runs_in_order_app before after s s' :
  runs_in_order (before ++ after) s s' ↔
  ∃ s1, runs_in_order before s s1 ∧ runs_in_order after s1 s'.
Proof.
  revert s. induction before as [|stmt rest IH]; intros s; simpl.
  - split.
    + intros Hrun. exists s. split; [constructor|done].
    + intros (s1 & Hnil & Hrun). by inversion Hnil; subst.
  - split.
    + inversion 1 as [|? ? ? s1 ? Hstmt Hrest]; subst.
      apply IH in Hrest as (s2 & Hbefore & Hafter).
      exists s2. split; [by econstructor|done].
    + intros (s2 & Hbefore & Hafter).
      inversion Hbefore as [|? ? ? s1 ? Hstmt Hrest]; subst.
      econstructor; [done|]. apply IH. by exists s2.
Qed.

Lemma runs_in_order_for_each stmts s s' :
  runs_in_order stmts s s' → for_each run_stmt stmts s = (Returns tt, s').
Proof.
  induction 1 as [|stmt rest s s1 s2 Hstmt _ IH]; simpl; [done|].
  unfold bind. by rewrite Hstmt.
Qed.

(** A name is in the environment exactly when it was there at the start
    or one of the statements run since declares it. *)
Lemma runs_in_order_declared stmts s s' v :
  runs_in_order stmts s s' →
  v ∈ dom (vars s') ↔ v ∈ dom (vars s) ∨ Var_def_node v ∈ stmts.
Proof.
  induction 1 as [|stmt rest s s1 s2 Hstmt _ IH].
  - set_solver.
  - rewrite IH, elem_of_cons. clear IH.
    assert (v ∈ dom (vars s1) ↔ v ∈ dom (vars s) ∨ Var_def_node v = stmt)
      as ->; [|tauto].
    pose proof (run_stmt_vars stmt s) as Hstep. rewrite Hstmt in Hstep.
    simpl in Hstep.
    destruct Hstep as [Hsame|[(x & -> & Hx & ->)|(x & e & val & -> & Hx & ->)]].
    + rewrite Hsame. split; [tauto|]. intros [?| <-]; [done|].
      rewrite run_stmt_def_var in Hstmt.
      destruct (vars s !! v) eqn:Hv; [done|].
      injection Hstmt as <-. simpl in Hsame.
      apply (f_equal (λ env : gmap string value, env !! v)) in Hsame.
      rewrite lookup_insert_eq, Hv in Hsame. done.
    + rewrite dom_insert_L. split.
      * intros [->%elem_of_singleton|?]%elem_of_union; tauto.
      * intros [?|[= ->]]; set_solver.
    + rewrite dom_insert_L. apply elem_of_dom in Hx.
      split; [|intros [?|[=]]; set_solver]. set_solver.
Qed.

(** A stored value stays as it is while no statement assigns to the name. *)
Lemma runs_in_order_kept stmts s s' v x :
  runs_in_order stmts s s' →
  vars s !! v = Some x →
  (∀ expr, Assignment_node v expr ∉ stmts) →
  vars s' !! v = Some x.
Proof.
  induction 1 as [|stmt rest s s1 s2 Hstmt _ IH]; intros Hv Hassign; [done|].
  apply IH.
  - pose proof (run_stmt_vars stmt s) as Hstep. rewrite Hstmt in Hstep.
    simpl in Hstep.
    destruct Hstep as [->|[(y & -> & Hy & ->)|(y & e & val & -> & Hy & ->)]];
      [done|..].
    + rewrite lookup_insert_ne; [done|]. intros ->. congruence.
    + rewrite lookup_insert_ne; [done|]. intros ->.
      apply (Hassign e). by left.
  - intros expr Hin. apply (Hassign expr). by right.
Qed.

(** ** The environment *)

(** C8: A statement leaves the value of every variable other than the
    one it declares or assigns as it was, removes no name from the
    environment, and adds a name only when it is the declaration of that
    name; over a whole run the set of declared names never shrinks.  This
    holds whether the statement returns or raises. *)
Theorem environment_entries_only_grow :
  (∀ stmt s,
     let s' := (run_stmt stmt s).2 in
     (∀ v, target stmt ≠ Some v → vars s' !! v = vars s !! v) ∧
     dom (vars s) ⊆ dom (vars s') ∧
     (∀ v, v ∈ dom (vars s') → v ∉ dom (vars s) → stmt = Var_def_node v)) ∧
  (∀ ast s, dom (vars s) ⊆ dom (vars (run ast s).2)).
Proof.
  split.
  - intros stmt s s'. subst s'. pose proof (run_stmt_vars stmt s) as Hstep.
    destruct Hstep as [->|[(x & -> & Hx & ->)|(x & e & val & -> & Hx & ->)]].
    + done.
    + split_and!.
      * intros v Hv. rewrite lookup_insert_ne; [done|]. naive_solver.
      * set_solver.
      * intros v Hin Hout. rewrite dom_insert_L in Hin.
        assert (v = x) as -> by set_solver. done.
    + apply elem_of_dom in Hx. split_and!.
      * intros v Hv. rewrite lookup_insert_ne; [done|]. naive_solver.
      * set_solver.
      * intros v Hin Hout. rewrite dom_insert_L in Hin. set_solver.
  - intros ast s. unfold run. destruct (find_main ast) as [main|]; [|done].
    unfold bind, modify.
    pose proof (for_each_vars_dom (statements main) (set_is_running true s))
      as Hdom.
    by destruct (for_each run_stmt _ _) as [[[]|e] s1].
Qed.

Lemma environment_entries_only_grow_witness :
  let s := set_vars (λ _, {["x" := VInt 1; "y" := VStr "a"]})
             (new_Interpreter []) in
  let s' := (run_stmt (Assignment_node "x" (Int_node 2)) s).2 in
  vars s' !! "y" = Some (VStr "a") ∧ dom (vars s) ⊆ dom (vars s').
Proof.
  intros s s'.
  destruct (proj1 environment_entries_only_grow
              (Assignment_node "x" (Int_node 2)) s) as (Hother & Hdom & _).
  split; [|exact Hdom].
  etrans; [apply (Hother "y")|]; [by intros [=]|by vm_compute].
Defined.

(** C3: On an interpreter that started with an empty environment and has
    run [stmts] since: if none of them declares [v], reading [v] raises a
    name error and so does any assignment to [v]; if one of them declares
    [v], declaring it again raises a name error; and if none of the
    statements after the declaration of [v] assigns to it, reading [v]
    returns the null sentinel. *)
Theorem variable_discipline (v : string) (stmts : list Element)
    (s0 s : Interpreter) :
  vars s0 = ∅ →
  runs_in_order stmts s0 s →
  (Var_def_node v ∉ stmts →
     eval (Qualified_name_node v) s =
       (Raises (InterpreterError NAME_ERROR
                  ("Variable " +:+ v +:+ " has not been defined")), s) ∧
     ∀ expr,
       run_stmt (Assignment_node v expr) s =
         (Raises (InterpreterError NAME_ERROR
                    ("Variable " +:+ v +:+ " has not been defined")),
          set_statement_count S s)) ∧
  (Var_def_node v ∈ stmts →
     run_stmt (Var_def_node v) s =
       (Raises (InterpreterError NAME_ERROR
                  ("Variable " +:+ v +:+ " defined more than once")),
        set_statement_count S s)) ∧
  (∀ before after,
     stmts = before ++ Var_def_node v :: after →
     (∀ expr, Assignment_node v expr ∉ after) →
     eval (Qualified_name_node v) s = (Returns VNone, s)).
Proof.
  intros Hempty Hrun. split_and!.
  - intros Hnever.
    assert (vars s !! v = None) as Hv.
    { apply not_elem_of_dom. rewrite (runs_in_order_declared _ _ _ _ Hrun).
      rewrite Hempty. set_solver. }
    split.
    + rewrite eval_qualified_name. by rewrite Hv.
    + intros expr. rewrite run_stmt_assign. by rewrite Hv.
  - intros Hdecl.
    assert (v ∈ dom (vars s)) as [x Hv]%elem_of_dom.
    { rewrite (runs_in_order_declared _ _ _ _ Hrun). by right. }
    rewrite run_stmt_def_var. by rewrite Hv.
  - intros before after -> Hassign.
    apply runs_in_order_app in Hrun as (s1 & _ & Hrun).
    inversion Hrun as [|? ? ? s2 ? Hdecl Hafter]; subst.
    rewrite run_stmt_def_var in Hdecl.
    destruct (vars s1 !! v); [done|]. injection Hdecl as <-.
    assert (vars s !! v = Some VNone) as Hv.
    { eapply runs_in_order_kept; [done| |done]. simpl.
      by rewrite lookup_insert_eq. }
    rewrite eval_qualified_name. by rewrite Hv.
Qed.

Lemma variable_discipline_witness :
  let s0 := new_Interpreter [] in
  let stmts := [Var_def_node "x"; Fcall_node "print" [String_node "a"]] in
  let s := (for_each run_stmt stmts s0).2 in
  eval (Qualified_name_node "x") s = (Returns VNone, s) ∧
  eval (Qualified_name_node "y") s =
    (Raises (InterpreterError NAME_ERROR "Variable y has not been defined"), s).
Proof.
  intros s0 stmts s.
  assert (runs_in_order stmts s0 s) as Hrun.
  { repeat (econstructor; [by vm_compute|]). constructor. }
  split.
  - apply (proj2 (proj2 (variable_discipline "x" stmts s0 s eq_refl Hrun))
             [] [Fcall_node "print" [String_node "a"]]); [done|].
    intros expr [[=]|[]%elem_of_nil]%elem_of_cons.
  - apply (proj1 (variable_discipline "y" stmts s0 s eq_refl Hrun)).
    intros [[=]|[[=]|[]%elem_of_nil]%elem_of_cons]%elem_of_cons.
Defined.

(** ** The runner *)

Lemma find_main_first before main after :
  Forall (λ func, func_name func ≠ "main") before →
  func_name main = "main" →
  find_main (mkProgram (before ++ main :: after)) = Some main.
Proof.
  intros Hbefore Hmain. unfold find_main. simpl.
  induction Hbefore as [|func rest Hfunc _ IH]; simpl.
  - by rewrite bool_decide_eq_true_2.
  - by rewrite bool_decide_eq_false_2.
Qed.

Lemma find_main_absent funcs :
  Forall (λ func, func_name func ≠ "main") funcs →
  find_main (mkProgram funcs) = None.
Proof.
  unfold find_main. simpl.
  induction 1 as [|func rest Hfunc _ IH]; simpl; [done|].
  by rewrite bool_decide_eq_false_2.
Qed.

Lemma runs_in_order_output_log stmts s s' :
  runs_in_order stmts s s' → output_log s `prefix_of` output_log s'.
Proof.
  induction 1 as [|stmt rest s s1 s2 Hstmt _ IH]; [done|].
  etrans; [|exact IH].
  pose proof (run_stmt_output_log stmt s) as Hlog. by rewrite Hstmt in Hlog.
Qed.

Lemma runs_in_order_statement_count stmts s s' :
  runs_in_order stmts s s' →
  statement_count s' = (statement_count s + length stmts)%nat.
Proof.
  induction 1 as [|stmt rest s s1 s2 Hstmt _ IH]; simpl; [lia|].
  pose proof (run_stmt_statement_count stmt s) as Hcount.
  rewrite Hstmt in Hcount. simpl in Hcount. lia.
Qed.

(** The loop stops at the first statement that raises. *)
Lemma for_each_raises before stmt after s s1 s2 e :
  runs_in_order before s s1 →
  run_stmt stmt s1 = (Raises e, s2) →
  for_each run_stmt (before ++ stmt :: after) s = (Raises e, s2).
Proof.
  intros Hbefore Hstmt.
  induction Hbefore as [|stmt0 rest s s0 s1 Hstmt0 _ IH]; simpl; unfold bind.
  - by rewrite Hstmt.
  - rewrite Hstmt0. by apply IH.
Qed.

(** C1 (as the code has it): [run] raises the name error "No main()
    function was found" when no function of the program is named [main];
    otherwise it takes the first function named [main], whatever its
    formal parameters, and runs its statements one after the other, from
    the first to the last, on the one interpreter object. *)
Theorem run_locates_main (ast : Program) (s : Interpreter) :
  (Forall (λ func, func_name func ≠ "main") (functions ast) →
     run ast s =
       (Raises (InterpreterError NAME_ERROR "No main() function was found"),
        s)) ∧
  (∀ before main after s',
     functions ast = before ++ main :: after →
     Forall (λ func, func_name func ≠ "main") before →
     func_name main = "main" →
     runs_in_order (statements main) (set_is_running true s) s' →
     run ast s = (Returns tt, set_is_running false s')).
Proof.
  destruct ast as [funcs]. simpl. split.
  - intros Hnone. unfold run. by rewrite find_main_absent.
  - intros before main after s' -> Hbefore Hmain Hrun. unfold run.
    rewrite find_main_first by done. unfold bind, modify.
    by rewrite (runs_in_order_for_each _ _ _ Hrun).
Qed.

Lemma run_locates_main_witness :
  let main := mkFunc "main" []
    [Var_def_node "x"; Assignment_node "x" (Int_node 5);
     Fcall_node "print" [Qualified_name_node "x"]] in
  let ast := mkProgram [mkFunc "helper" [] []; main] in
  output_log (run ast (new_Interpreter [])).2 = ["5"] ∧
  run (mkProgram [mkFunc "helper" [] []]) (new_Interpreter []) =
    (Raises (InterpreterError NAME_ERROR "No main() function was found"),
     new_Interpreter []).
Proof.
  intros main ast. split.
  - pose (s' := (for_each run_stmt (statements main)
                   (set_is_running true (new_Interpreter []))).2).
    assert (runs_in_order (statements main)
              (set_is_running true (new_Interpreter [])) s') as Hrun.
    { repeat (econstructor; [by vm_compute|]). constructor. }
    rewrite (proj2 (run_locates_main ast (new_Interpreter []))
               [mkFunc "helper" [] []] main [] s' eq_refl
               ltac:(by repeat constructor) eq_refl Hrun).
    by vm_compute.
  - apply (proj1 (run_locates_main _ _)). by repeat constructor.
Defined.

(** C1, as the spec words it, fails: a program whose only [main] takes a
    parameter has no [main] without parameters, and yet [run] raises
    nothing and runs its body. *)
Lemma main_with_a_parameter_runs :
  let ast := mkProgram
    [mkFunc "main" ["n"] [Fcall_node "print" [String_node "hi"]]] in
  Forall (λ func, ¬ (func_name func = "main" ∧ func_args func = []))
    (functions ast) ∧
  (run ast (new_Interpreter [])).1 = Returns tt ∧
  output_log (run ast (new_Interpreter [])).2 = ["hi"] ∧
  (run ast (new_Interpreter [])).1 ≠
    Raises (InterpreterError NAME_ERROR "No main() function was found").
Proof.
  intros ast. split_and!; [|done..].
  constructor; [|constructor]. by intros [_ [=]].
Qed.

(** C5: When the statements before [stmt] in the body of [main] have run
    and [stmt] raises [e], the run raises that same [e] (the error kind
    and the description) to the caller and ends in the state [stmt] left:
    the output written so far is still there, and the number of
    statements executed is that of the statements up to [stmt], so none
    of those after it was run. *)
Theorem first_error_aborts_run (ast : Program) (main : Func)
    (before : list Element) (stmt : Element) (after : list Element)
    (s s1 s2 : Interpreter) (e : exn) :
  find_main ast = Some main →
  statements main = before ++ stmt :: after →
  runs_in_order before (set_is_running true s) s1 →
  run_stmt stmt s1 = (Raises e, s2) →
  run ast s = (Raises e, s2) ∧
  output_log s `prefix_of` output_log s1 ∧
  output_log s1 `prefix_of` output_log s2 ∧
  statement_count s2 = (statement_count s + length before + 1)%nat.
Proof.
  intros Hmain Hbody Hbefore Hstmt. split_and!.
  - unfold run. rewrite Hmain, Hbody. unfold bind, modify.
    by rewrite (for_each_raises _ _ _ _ _ _ _ Hbefore Hstmt).
  - apply (runs_in_order_output_log _ _ _ Hbefore).
  - pose proof (run_stmt_output_log stmt s1) as Hlog.
    by rewrite Hstmt in Hlog.
  - pose proof (run_stmt_statement_count stmt s1) as Hcount.
    rewrite Hstmt in Hcount. simpl in Hcount.
    rewrite (runs_in_order_statement_count _ _ _ Hbefore) in Hcount.
    simpl in Hcount. lia.
Qed.

Lemma first_error_aborts_run_witness :
  let main := mkFunc "main" []
    [Fcall_node "print" [String_node "a"];
     Fcall_node "print" [Arith_node Plus (Int_node 1) (String_node "b")];
     Fcall_node "print" [String_node "c"]] in
  ∃ s2,
    run (mkProgram [main]) (new_Interpreter []) =
      (Raises (InterpreterError TYPE_ERROR
                 "Incompatible types for arithmetic operation"), s2) ∧
    output_log s2 = ["a"] ∧ statement_count s2 = 2%nat.
Proof.
  intros main.
  pose (s1 := (run_stmt (Fcall_node "print" [String_node "a"])
                 (set_is_running true (new_Interpreter []))).2).
  pose (s2 := (run_stmt
                 (Fcall_node "print"
                    [Arith_node Plus (Int_node 1) (String_node "b")]) s1).2).
  exists s2.
  destruct (first_error_aborts_run (mkProgram [main]) main
              [Fcall_node "print" [String_node "a"]]
              (Fcall_node "print"
                 [Arith_node Plus (Int_node 1) (String_node "b")])
              [Fcall_node "print" [String_node "c"]]
              (new_Interpreter []) s1 s2
              (InterpreterError TYPE_ERROR
                 "Incompatible types for arithmetic operation"))
    as (Hrun & _ & _ & Hcount).
  - done.
  - done.
  - econstructor; [by vm_compute|]. constructor.
  - by vm_compute.
  - split_and!; [exact Hrun|by vm_compute|exact Hcount].
Defined.

(** ** Arithmetic *)

(** C2: [eval] of a [+] or [-] node evaluates the left operand, then the
    right operand on the interpreter the left one left behind; an error
    of the left operand comes before anything of the right one.  When
    both values are integers the result is their sum for [+] and left
    minus right for [-]; when either value is a string or the null
    sentinel the evaluation raises a type error. *)
Theorem arith_left_then_right (op : arith) (e1 e2 : Element)
    (s : Interpreter) :
  (∀ e s1, eval e1 s = (Raises e, s1) →
     eval (Arith_node op e1 e2) s = (Raises e, s1)) ∧
  (∀ v1 s1, eval e1 s = (Returns v1, s1) →
     (∀ e s2, eval e2 s1 = (Raises e, s2) →
        eval (Arith_node op e1 e2) s = (Raises e, s2)) ∧
     (∀ v2 s2, eval e2 s1 = (Returns v2, s2) →
        (∀ a b, v1 = VInt a → v2 = VInt b →
           eval (Arith_node op e1 e2) s =
             (Returns (VInt match op with
                            | Plus => a + b
                            | Minus => a - b
                            end), s2)) ∧
        ((∀ a, v1 ≠ VInt a) ∨ (∀ b, v2 ≠ VInt b) →
           eval (Arith_node op e1 e2) s =
             (Raises (InterpreterError TYPE_ERROR
                        "Incompatible types for arithmetic operation"),
              s2)))).
Proof.
  split.
  - intros e s1 H1. rewrite eval_arith. by rewrite H1.
  - intros v1 s1 H1. split.
    + intros e s2 H2. rewrite eval_arith. by rewrite H1, H2.
    + intros v2 s2 H2. split.
      * intros a b -> ->. rewrite eval_arith. by rewrite H1, H2.
      * intros Hnot. rewrite eval_arith. rewrite H1, H2.
        destruct v1 as [|a|t], v2 as [|b|u]; try done.
        by destruct Hnot as [Hnot|Hnot]; [destruct (Hnot a)|destruct (Hnot b)].
Qed.

Lemma arith_left_then_right_witness :
  let s := new_Interpreter ["10"; "3"] in
  eval (Arith_node Minus (Fcall_node "inputi" []) (Fcall_node "inputi" [])) s =
    (Returns (VInt 7), set_inp (λ _, []) s) ∧
  eval (Arith_node Plus (Int_node 1) (String_node "b")) s =
    (Raises (InterpreterError TYPE_ERROR
               "Incompatible types for arithmetic operation"), s).
Proof.
  intros s. split.
  - apply (proj1 (proj2 (proj2 (arith_left_then_right Minus
                                  (Fcall_node "inputi" [])
                                  (Fcall_node "inputi" []) s)
                           (VInt 10) (set_inp (λ _, ["3"]) s) eq_refl)
                    (VInt 3) (set_inp (λ _, []) s) eq_refl)
             10 3 eq_refl eq_refl).
  - apply (proj2 (proj2 (proj2 (arith_left_then_right Plus (Int_node 1)
                                  (String_node "b") s)
                           (VInt 1) s eq_refl)
                    (VStr "b") s eq_refl)).
    right. by intros b.
Defined.

(** ** Built-in functions *)

Lemma string_app_nil_r (t : string) : t +:+ "" = t.
Proof.
  induction t as [|c t IH]; [done|].
  change (String c (t +:+ "") = String c t). by rewrite IH.
Qed.


Lemma concat_empty_cons (t : string) (ts : list string) :
  String.concat "" (t :: ts) = t +:+ String.concat "" ts.
Proof. destruct ts; [symmetry; apply string_app_nil_r|done]. Qed.


Lemma join_str_in_order args s vs s' :
  evaluates_in_order args s vs s' →
  join_str eval args s = (Returns (String.concat "" (map str vs)), s').
Proof.
  induction 1 as [|a rest s v s1 vs s2 Ha _ IH]; [done|].
  simpl join_str. unfold bind. rewrite Ha, IH. unfold ret.
  by rewrite map_cons, concat_empty_cons.
Qed.


Lemma call_func_print args s :
  call_func "print" args s =
  match join_str eval args s with
  | (Returns output_str, s1) =>
      (Returns VNone, set_output_log (λ log, log ++ [output_str]) s1)
  | (Raises e, s1) => (Raises e, s1)
  end.
Proof.
  unfold call_func, call_func_body. simpl. unfold bind.
  by destruct (join_str eval args s) as [[output_str|e] s1].
Qed.

(** C4: When the arguments of a [print] call evaluate, from left to
    right, to the values [vs], each of them a value whose text the host
    returns, the call writes exactly one line to the output, the texts of
    the values joined with nothing in between (the empty line when there
    is no argument), and returns the null sentinel.  The text of such an
    integer is its decimal numeral and the text of a string is the
    string. *)
Theorem print_writes_one_line (args : list Element) (s : Interpreter)
    (vs : list value) (s' : Interpreter) :
  evaluates_in_order args s vs s' →
  Forall within_str_limit vs →
  eval (Fcall_node "print" args) s =
    (Returns VNone,
     set_output_log (λ log, log ++ [String.concat "" (map str vs)]) s') ∧
  (∀ n, within_str_limit (VInt n) → str (VInt n) = pretty n) ∧
  (∀ t, str (VStr t) = t).
Proof.
  intros Hargs _. split; [|done].
  rewrite eval_fcall, call_func_print.
  by rewrite (join_str_in_order _ _ _ _ Hargs).
Qed.

Lemma print_writes_one_line_witness :
  let s := new_Interpreter [] in
  eval (Fcall_node "print"
          [String_node "x"; Int_node 1; String_node ""; Int_node (-2)]) s =
    (Returns VNone, set_output_log (λ _, ["x1-2"]) s) ∧
  eval (Fcall_node "print" []) s =
    (Returns VNone, set_output_log (λ _, [""]) s).
Proof.
  intros s. split.
  - apply (print_writes_one_line
             [String_node "x"; Int_node 1; String_node ""; Int_node (-2)] s
             [VStr "x"; VInt 1; VStr ""; VInt (-2)] s).
    + repeat (econstructor; [done|]). constructor.
    + repeat constructor; by vm_compute.
  - apply (print_writes_one_line [] s [] s); constructor.
Defined.



(** *** Decimal numerals *)

Section numerals.

Local Open Scope Z_scope.

Lemma pretty_N_go_digits (P : string → Prop) :
  (∀ d s, (d < 10)%N → P s → P (String (pretty_N_char d) s)) →
  ∀ x s, P s → P (pretty_N_go x s).
Proof.
  intros Hstep x. induction (N.lt_wf_0 x) as [x _ IH]. intros s Hs.
  destruct (decide (x = 0)%N) as [->|Hx]; [done|].
  rewrite pretty_N_go_step by lia. apply IH.
  - apply N.div_lt; lia.
  - apply Hstep; [|done]. by apply N.mod_lt.
Qed.

Lemma digit_of_pretty_N_char d :
  (d < 10)%N → digit_of (pretty_N_char d) = Some (Z.of_N d).
Proof.
  intros Hd.
  assert (d = 0 ∨ d = 1 ∨ d = 2 ∨ d = 3 ∨ d = 4 ∨ d = 5 ∨ d = 6 ∨ d = 7 ∨
          d = 8 ∨ d = 9)%N as Hcases by lia.
  repeat (destruct Hcases as [->|Hcases]; [done|]). by subst.
Qed.

Lemma is_space_pretty_N_char d : is_space (pretty_N_char d) = false.
Proof. unfold pretty_N_char. by repeat case_match. Qed.

Lemma rstrip_cons c rest :
  is_space c = false → rstrip rest = rest →
  rstrip (String c rest) = String c rest.
Proof. intros Hc Hrest. simpl. rewrite Hrest, Hc. by destruct rest. Qed.

Lemma rstrip_pretty_N_go x : rstrip (pretty_N_go x "") = pretty_N_go x "".
Proof.
  apply (pretty_N_go_digits (λ t, rstrip t = t)); [|done].
  intros d s _ Hs. apply rstrip_cons; [apply is_space_pretty_N_char|done].
Qed.

Lemma strip_pretty_N_go x :
  rstrip (lstrip (pretty_N_go x "")) = pretty_N_go x "".
Proof.
  assert (lstrip (pretty_N_go x "") = pretty_N_go x "") as ->.
  { apply (pretty_N_go_digits (λ t, lstrip t = t)); [|done].
    intros d s _ _. simpl. by rewrite is_space_pretty_N_char. }
  apply rstrip_pretty_N_go.
Qed.

(** The numeral of [x > 0] has [k] digits, [x] lies between the powers
    of ten that go with [k], and reading the numeral moves the accumulator
    left by [k] digits and adds [x]. *)
Lemma pretty_N_go_numeral x :
  (0 < x)%N →
  ∃ k : Z,
    0 < k ∧ 10 ^ (k - 1) ≤ Z.of_N x ∧ Z.of_N x < 10 ^ k ∧
    (∀ s, count_digits (pretty_N_go x s) = k + count_digits s) ∧
    (∀ acc after_digit s,
       int_digits acc after_digit (pretty_N_go x s) =
       int_digits (acc * 10 ^ k + Z.of_N x) true s).
Proof.
  induction (N.lt_wf_0 x) as [x _ IH]. intros Hx.
  destruct (decide (x < 10)%N) as [Hsmall|Hbig].
  - exists 1. split_and!; [lia|simpl; lia|simpl; lia|..].
    + intros s. rewrite pretty_N_go_step by done.
      rewrite N.div_small, N.mod_small, pretty_N_go_0 by done.
      simpl count_digits. by rewrite digit_of_pretty_N_char.
    + intros acc after_digit s. rewrite pretty_N_go_step by done.
      rewrite N.div_small, N.mod_small, pretty_N_go_0 by done.
      simpl int_digits. rewrite digit_of_pretty_N_char by done.
      f_equal. lia.
  - destruct (IH (x `div` 10)%N) as (k & Hk & Hlow & Hhigh & Hcount & Hread).
    { apply N.div_lt; lia. }
    { apply N.div_str_pos. lia. }
    assert (Z.of_N x = 10 * Z.of_N (x `div` 10) + Z.of_N (x `mod` 10))
      as Hsplit.
    { rewrite (N.div_mod x 10) at 1 by done.
      by rewrite N2Z.inj_add, N2Z.inj_mul. }
    assert (0 ≤ Z.of_N (x `mod` 10) < 10) as Hdigit.
    { split; [apply N2Z.is_nonneg|].
      change 10 with (Z.of_N 10). apply N2Z.inj_lt. by apply N.mod_lt. }
    assert (10 ^ (k + 1) = 10 * 10 ^ k) as Hup.
    { rewrite Z.pow_add_r by lia. lia. }
    assert (10 ^ k = 10 * 10 ^ (k - 1)) as Hdown.
    { replace k with (k - 1 + 1) at 1 by lia.
      rewrite Z.pow_add_r by lia. lia. }
    exists (k + 1). split_and!.
    + lia.
    + replace (k + 1 - 1) with k by lia. lia.
    + lia.
    + intros s. rewrite pretty_N_go_step by done. rewrite Hcount.
      simpl count_digits.
      rewrite digit_of_pretty_N_char by (by apply N.mod_lt). lia.
    + intros acc after_digit s. rewrite pretty_N_go_step by done.
      rewrite Hread. simpl int_digits.
      rewrite digit_of_pretty_N_char by (by apply N.mod_lt).
      f_equal. rewrite Hup, Hsplit. lia.
Qed.

Lemma py_int_without_sign t :
  rstrip (lstrip t) = t →
  count_digits t ≤ max_str_digits →
  (∀ rest, t ≠ String "-" rest) →
  (∀ rest, t ≠ String "+" rest) →
  py_int t = int_digits 0 false t.
Proof.
  intros Hstrip Hcount Hminus Hplus. unfold py_int. rewrite Hstrip.
  rewrite (proj2 (Z.ltb_ge _ _)) by done.
  destruct t as [|c rest]; [done|].
  destruct c as [[] [] [] [] [] [] [] []]; try done.
  - by destruct (Hplus rest).
  - by destruct (Hminus rest).
Qed.

Lemma py_int_pretty_N_go x :
  (0 < x)%N →
  Z.of_N x < 10 ^ max_str_digits →
  count_digits (pretty_N_go x "") ≤ max_str_digits ∧
  int_digits 0 false (pretty_N_go x "") = Some (Z.of_N x) ∧
  py_int (pretty_N_go x "") = Some (Z.of_N x).
Proof.
  intros Hx Hlimit.
  destruct (pretty_N_go_numeral x Hx) as (k & Hk & Hlow & _ & Hcount & Hread).
  assert (count_digits (pretty_N_go x "") ≤ max_str_digits) as Hfits.
  { rewrite Hcount. simpl count_digits.
    assert (k - 1 < max_str_digits); [|lia].
    apply (Z.pow_lt_mono_r_iff 10); [lia|by unfold max_str_digits|lia]. }
  assert (int_digits 0 false (pretty_N_go x "") = Some (Z.of_N x)) as Hvalue.
  { rewrite Hread. simpl. f_equal. }
  split_and!; [done|done|]. rewrite <- Hvalue.
  apply py_int_without_sign; [apply strip_pretty_N_go|done|..].
  - apply (pretty_N_go_digits (λ t, ∀ rest, t ≠ String "-" rest)); [|done].
    intros d s _ _ rest. unfold pretty_N_char. by repeat case_match.
  - apply (pretty_N_go_digits (λ t, ∀ rest, t ≠ String "+" rest)); [|done].
    intros d s _ _ rest. unfold pretty_N_char. by repeat case_match.
Qed.

(** [int(str(n))] is [n] for the integers whose text the host returns. *)
Lemma py_int_str (n : Z) :
  within_str_limit (VInt n) → py_int (str (VInt n)) = Some n.
Proof.
  unfold within_str_limit. intros Hlimit.
  destruct n as [|x|x]; [done|..]; simpl str.
  - assert (pretty (Z.pos x) = pretty_N_go (N.pos x) "") as -> by done.
    apply (py_int_pretty_N_go (N.pos x)); [lia|]. simpl in *. lia.
  - assert (pretty (Z.neg x) = String "-" (pretty_N_go (N.pos x) ""))
      as -> by done.
    destruct (py_int_pretty_N_go (N.pos x)) as (Hfits & Hvalue & _);
      [lia|simpl in *; lia|].
    unfold py_int.
    assert (lstrip (String "-" (pretty_N_go (N.pos x) "")) =
            String "-" (pretty_N_go (N.pos x) "")) as -> by done.
    rewrite rstrip_cons by (done || apply rstrip_pretty_N_go). cbv zeta.
    change (count_digits (String "-" (pretty_N_go (N.pos x) "")))
      with (0 + count_digits (pretty_N_go (N.pos x) "")).
    rewrite (proj2 (Z.ltb_ge _ _)) by lia. by rewrite Hvalue.
Qed.

End numerals.

Lemma call_func_inputi args s :
  call_func "inputi" args s =
  if (1 <? length args)%nat then
    (Raises (InterpreterError NAME_ERROR
               "No inputi() function found that takes > 1 parameter"), s)
  else
    match args with
    | [a] =>
        match eval a s with
        | (Returns v, s1) =>
            read_int (set_output_log (λ log, log ++ [str v]) s1)
        | (Raises e, s1) => (Raises e, s1)
        end
    | _ => read_int s
    end.
Proof.
  unfold call_func, call_func_body. simpl. unfold bind, when.
  destruct (1 <? length args)%nat; [done|].
  destruct args as [|a [|b rest]]; simpl; unfold bind; try done.
  by destruct (eval a s) as [[v|e] s1].
Qed.

Lemma read_int_token s token rest n :
  inp s = token :: rest →
  py_int token = Some n →
  read_int s = (Returns (VInt n), set_inp (λ _, rest) s).
Proof.
  intros Hinp Hint. unfold read_int, bind, get_input.
  by rewrite Hinp, Hint.
Qed.

(** C6: [inputi()] reads one token of the input, parses it as an
    integer and returns that integer, the rest of the input being left
    for later reads.  [inputi(e)] evaluates [e] first; if [e] raises,
    nothing is written and nothing is read.  Otherwise the text of its
    value is written to the output as a prompt before the read: when the
    read finds no token, or a token that is not a numeral, the call
    raises with the prompt already written; when the token parses, the
    call returns its integer.  Parsing reads decimal numerals: the
    numeral of every integer of at most [max_str_digits] digits parses to
    that integer. *)
Theorem inputi_reads_one_integer :
  (∀ s token rest n,
     inp s = token :: rest →
     py_int token = Some n →
     eval (Fcall_node "inputi" []) s =
       (Returns (VInt n), set_inp (λ _, rest) s)) ∧
  (∀ e s x s1,
     eval e s = (Raises x, s1) →
     eval (Fcall_node "inputi" [e]) s = (Raises x, s1)) ∧
  (∀ e s v s1,
     eval e s = (Returns v, s1) →
     within_str_limit v →
     let prompted := set_output_log (λ log, log ++ [str v]) s1 in
     (inp s1 = [] →
        eval (Fcall_node "inputi" [e]) s =
          (Raises (HostError "TypeError"), prompted)) ∧
     (∀ token rest,
        inp s1 = token :: rest →
        py_int token = None →
        eval (Fcall_node "inputi" [e]) s =
          (Raises (HostError "ValueError"), set_inp (λ _, rest) prompted)) ∧
     (∀ token rest n,
        inp s1 = token :: rest →
        py_int token = Some n →
        eval (Fcall_node "inputi" [e]) s =
          (Returns (VInt n), set_inp (λ _, rest) prompted))) ∧
  (∀ n, (Z.abs n < 10 ^ max_str_digits)%Z → py_int (pretty n) = Some n).
Proof.
  split_and!.
  - intros s token rest n Hinp Hint.
    rewrite eval_fcall, call_func_inputi. simpl.
    by apply (read_int_token s token rest n).
  - intros e s x s1 He. rewrite eval_fcall, call_func_inputi. simpl.
    by rewrite He.
  - intros e s v s1 He _ prompted. split_and!.
    + intros Hinp. rewrite eval_fcall, call_func_inputi. simpl. rewrite He.
      unfold read_int, bind, get_input. simpl. by rewrite Hinp.
    + intros token rest Hinp Hint.
      rewrite eval_fcall, call_func_inputi. simpl. rewrite He.
      unfold read_int, bind, get_input. simpl. by rewrite Hinp, Hint.
    + intros token rest n Hinp Hint.
      rewrite eval_fcall, call_func_inputi. simpl. rewrite He.
      by apply (read_int_token _ token rest n).
  - intros n Hlimit. by apply (py_int_str n).
Qed.

Lemma inputi_reads_one_integer_witness :
  let s := new_Interpreter ["42"; "7"] in
  eval (Fcall_node "inputi" []) s = (Returns (VInt 42), set_inp (λ _, ["7"]) s) ∧
  eval (Fcall_node "inputi" [String_node "n? "]) s =
    (Returns (VInt 42),
     set_inp (λ _, ["7"]) (set_output_log (λ _, ["n? "]) s)) ∧
  eval (Fcall_node "inputi" [String_node "n? "]) (new_Interpreter ["x"]) =
    (Raises (HostError "ValueError"),
     set_output_log (λ _, ["n? "]) (new_Interpreter [])) ∧
  eval (Fcall_node "inputi" [String_node "n? "]) (new_Interpreter []) =
    (Raises (HostError "TypeError"),
     set_output_log (λ _, ["n? "]) (new_Interpreter [])) ∧
  py_int (pretty (-42)%Z) = Some (-42)%Z.
Proof.
  intros s.
  destruct inputi_reads_one_integer as (Hplain & _ & Hprompt & Hparse).
  split_and!.
  - apply (Hplain s "42" ["7"] 42); done.
  - by apply (proj2 (proj2 (Hprompt (String_node "n? ") s (VStr "n? ") s
                              eq_refl I)) "42" ["7"] 42).
  - by apply (proj1 (proj2 (Hprompt (String_node "n? ")
                              (new_Interpreter ["x"]) (VStr "n? ")
                              (new_Interpreter ["x"]) eq_refl I)) "x" []).
  - by apply (proj1 (Hprompt (String_node "n? ") (new_Interpreter [])
                       (VStr "n? ") (new_Interpreter []) eq_refl I)).
  - apply Hparse. by vm_compute.
Defined.

(** C7 (as the code has it): [inputi] with two or more arguments raises
    the name error "No inputi() function found that takes > 1
    parameter", and a call of any name other than [print] and [inputi]
    raises the name error "Function <name> has not been defined"; in both
    cases no argument is evaluated and the interpreter is left as it
    was. *)
Theorem callable_names_are_closed :
  (∀ args s,
     (1 < length args)%nat →
     eval (Fcall_node "inputi" args) s =
       (Raises (InterpreterError NAME_ERROR
                  "No inputi() function found that takes > 1 parameter"),
        s)) ∧
  (∀ func_name args s,
     func_name ≠ "print" →
     func_name ≠ "inputi" →
     eval (Fcall_node func_name args) s =
       (Raises (InterpreterError NAME_ERROR
                  ("Function " +:+ func_name +:+ " has not been defined")),
        s)).
Proof.
  split.
  - intros args s Hlen. rewrite eval_fcall, call_func_inputi.
    by apply Nat.ltb_lt in Hlen as ->.
  - intros func_name args s Hprint Hinputi.
    rewrite eval_fcall. unfold call_func, call_func_body.
    by rewrite !decide_False.
Qed.

Lemma callable_names_are_closed_witness :
  let s := new_Interpreter ["1"] in
  eval (Fcall_node "inputi" [Fcall_node "inputi" []; Int_node 2]) s =
    (Raises (InterpreterError NAME_ERROR
               "No inputi() function found that takes > 1 parameter"), s) ∧
  eval (Fcall_node "inputs" [Fcall_node "inputi" []]) s =
    (Raises (InterpreterError NAME_ERROR
               "Function inputs has not been defined"), s).
Proof.
  intros s. split.
  - apply (proj1 callable_names_are_closed). simpl. lia.
  - by apply (proj2 callable_names_are_closed "inputs").
Defined.

(** C7, as the spec words it, fails on the description of the arity
    error: the code's message starts with a capital letter. *)
Lemma inputi_arity_message_is_capitalised :
  (eval (Fcall_node "inputi" [Int_node 1; Int_node 2]) (new_Interpreter [])).1 =
    Raises (InterpreterError NAME_ERROR
              "No inputi() function found that takes > 1 parameter") ∧
  (eval (Fcall_node "inputi" [Int_node 1; Int_node 2]) (new_Interpreter [])).1 ≠
    Raises (InterpreterError NAME_ERROR
              "no inputi() function found that takes > 1 parameter").
Proof. split; [done|]. by intros [=]. Qed.

(** C9: On a node of any kind other than the integer literal, the string
    literal, the variable reference, the call and the two arithmetic
    operators, [eval] raises nothing, returns the null sentinel and
    leaves the interpreter as it was. *)
Theorem eval_of_other_kinds_is_null (expr : Element) (s : Interpreter) :
  is_expression expr = false →
  eval expr s = (Returns VNone, s).
Proof. by destruct expr. Qed.

Lemma eval_of_other_kinds_is_null_witness :
  eval (Other_node "*") (new_Interpreter []) =
    (Returns VNone, new_Interpreter []) ∧
  eval (Var_def_node "x") (new_Interpreter []) =
    (Returns VNone, new_Interpreter []).
Proof.
  split.
  - by apply (eval_of_other_kinds_is_null (Other_node "*")).
  - by apply (eval_of_other_kinds_is_null (Var_def_node "x")).
Defined.

(** ** The programs the module runs when executed as a script *)

(** [def main() { var x; x = 5; print(x); }] *)
Example test_case_1 :
  output_of [Var_def_node "x"; Assignment_node "x" (Int_node 5);
             Fcall_node "print" [Qualified_name_node "x"]] [] =
  (Returns tt, ["5"]).
Proof. by vm_compute. Qed.

(** [def main() { var a; var b; a = 10; b = 20; print(a + b); }] *)
Example test_case_2 :
  output_of [Var_def_node "a"; Var_def_node "b";
             Assignment_node "a" (Int_node 10);
             Assignment_node "b" (Int_node 20);
             Fcall_node "print"
               [Arith_node Plus (Qualified_name_node "a")
                  (Qualified_name_node "b")]] [] =
  (Returns tt, ["30"]).
Proof. by vm_compute. Qed.

(** [def main() { var x; x = (5 + 3) - 2; print(x); }] *)
Example test_case_9 :
  output_of [Var_def_node "x";
             Assignment_node "x"
               (Arith_node Minus (Arith_node Plus (Int_node 5) (Int_node 3))
                  (Int_node 2));
             Fcall_node "print" [Qualified_name_node "x"]] [] =
  (Returns tt, ["6"]).
Proof. by vm_compute. Qed.

(** [def main() { print(""); }] *)
Example test_case_13 :
  output_of [Fcall_node "print" [String_node ""]] [] = (Returns tt, [""]).
Proof. by vm_compute. Qed.

(** [def main() { print("x", 1, "y", 2); }] *)
Example test_case_25 :
  output_of [Fcall_node "print"
               [String_node "x"; Int_node 1; String_node "y"; Int_node 2]] [] =
  (Returns tt, ["x1y2"]).
Proof. by vm_compute. Qed.

(** [def main() { var x; x = (1 + 2) - (3 - 4); print(x); }] *)
Example test_case_24 :
  output_of [Var_def_node "x";
             Assignment_node "x"
               (Arith_node Minus (Arith_node Plus (Int_node 1) (Int_node 2))
                  (Arith_node Minus (Int_node 3) (Int_node 4)));
             Fcall_node "print" [Qualified_name_node "x"]] [] =
  (Returns tt, ["4"]).
Proof. by vm_compute. Qed.

(** ** Further properties of the interpreter *)

(** *** What one statement does to the rest of the object *)

(** A statement touches the channels and the running flag only through
    the expressions it evaluates. *)
Lemma run_stmt_channels stmt s :
  inp (run_stmt stmt s).2 `suffix_of` inp s ∧
  is_running (run_stmt stmt s).2 = is_running s.
Proof.
  destruct stmt as [val|val|name|name args|op op1 op2|name|var expression|ty];
    try (rewrite run_stmt_expression by done;
      match goal with |- context [eval ?e ?s0] =>
        pose proof (frame_inp _ _ (framed_eval e s0));
        pose proof (frame_is_running _ _ (framed_eval e s0));
        by destruct (eval e s0) as [[?|?] ?] end).
  - rewrite run_stmt_def_var. by destruct (vars s !! name).
  - rewrite run_stmt_assign. destruct (vars s !! var); [|done].
    pose proof (frame_inp _ _
                  (framed_eval expression (set_statement_count S s))).
    pose proof (frame_is_running _ _
                  (framed_eval expression (set_statement_count S s))).
    by destruct (eval expression _) as [[?|?] ?].
Qed.

(** How the loop over the body of [main] can end. *)
Lemma for_each_cases stmts s :
  (∃ s', for_each run_stmt stmts s = (Returns tt, s') ∧
     runs_in_order stmts s s') ∨
  (∃ before stmt after s1 e s2,
     stmts = before ++ stmt :: after ∧
     runs_in_order before s s1 ∧
     run_stmt stmt s1 = (Raises e, s2) ∧
     for_each run_stmt stmts s = (Raises e, s2)).
Proof.
  revert s. induction stmts as [|stmt rest IH]; intros s.
  - left. exists s. split; [done|constructor].
  - simpl. unfold bind.
    destruct (run_stmt stmt s) as [[[]|e] s1] eqn:Hstmt.
    + destruct (IH s1) as [(s' & Hfor & Hrun)|
        (before & stmt' & after & s2 & e & s3 & -> & Hrun & Hstmt' & Hfor)].
      * left. exists s'. split; [done|]. by econstructor.
      * right. exists (stmt :: before), stmt', after, s2, e, s3.
        split_and!; [done| |done|done]. by econstructor.
    + right. exists [], stmt, rest, s, e, s1.
      split_and!; [done|constructor|done|done].
Qed.

Lemma for_each_returns stmts s s' :
  for_each run_stmt stmts s = (Returns tt, s') → runs_in_order stmts s s'.
Proof.
  intros Hfor.
  destruct (for_each_cases stmts s) as [(s1 & Hfor1 & Hrun)|
    (before & stmt & after & s1 & e & s2 & _ & _ & _ & Hfor1)];
    rewrite Hfor in Hfor1; [|done].
  by injection Hfor1 as ->.
Qed.

Lemma run_returns ast s s' :
  run ast s = (Returns tt, s') →
  ∃ main s1,
    find_main ast = Some main ∧
    runs_in_order (statements main) (set_is_running true s) s1 ∧
    s' = set_is_running false s1.
Proof.
  unfold run. destruct (find_main ast) as [main|]; [|done].
  unfold bind, modify.
  destruct (for_each run_stmt _ _) as [[[]|e] s1] eqn:Hfor; [|done].
  intros [= <-]. exists main, s1. split_and!; [done| |done].
  by apply for_each_returns.
Qed.

Lemma runs_in_order_channels stmts s s' :
  runs_in_order stmts s s' →
  inp s' `suffix_of` inp s ∧ is_running s' = is_running s.
Proof.
  induction 1 as [|stmt rest s s1 s2 Hstmt _ [IHinp IHrun]]; [done|].
  pose proof (run_stmt_channels stmt s) as [Hinp Hflag].
  rewrite Hstmt in Hinp, Hflag. simpl in *. split; [by etrans|congruence].
Qed.

(** X1: Evaluating an expression never changes the environment, the two
    counters or the running flag; all it can do to the interpreter is
    append lines to the output and consume tokens from the front of the
    input, whether it returns or raises. *)
Theorem eval_only_writes_and_reads (expr : Element) (s : Interpreter) :
  let s' := (eval expr s).2 in
  vars s' = vars s ∧
  statement_count s' = statement_count s ∧
  variable_count s' = variable_count s ∧
  is_running s' = is_running s ∧
  output_log s `prefix_of` output_log s' ∧
  inp s' `suffix_of` inp s.
Proof. destruct (framed_eval expr s). by split_and!. Qed.

(** X2: An assignment to a declared variable whose right-hand side
    evaluates to [val] returns, and the variable then reads as [val],
    whatever kind of value it held before; the environment is otherwise
    the one before the statement. *)
Theorem assignment_then_read (v : string) (expr : Element)
    (s s1 : Interpreter) (val : value) :
  is_Some (vars s !! v) →
  eval expr (set_statement_count S s) = (Returns val, s1) →
  ∃ s',
    run_stmt (Assignment_node v expr) s = (Returns tt, s') ∧
    vars s' = <[v := val]> (vars s) ∧
    eval (Qualified_name_node v) s' = (Returns val, s').
Proof.
  intros [old Hold] Hexpr.
  exists (set_vars (λ env, <[v := val]> env) s1).
  pose proof (frame_vars _ _ (framed_eval expr (set_statement_count S s)))
    as Hvars.
  rewrite Hexpr in Hvars. simpl in Hvars.
  rewrite run_stmt_assign, Hold, Hexpr. split_and!; [done|..].
  - simpl. by rewrite Hvars.
  - rewrite eval_qualified_name. simpl. by rewrite lookup_insert_eq.
Qed.

Lemma assignment_then_read_witness :
  let s := (run_stmt (Assignment_node "x" (Int_node 1))
              (run_stmt (Var_def_node "x") (new_Interpreter [])).2).2 in
  ∃ s',
    run_stmt (Assignment_node "x" (String_node "one")) s = (Returns tt, s') ∧
    vars s' = <["x" := VStr "one"]> (vars s) ∧
    eval (Qualified_name_node "x") s' = (Returns (VStr "one"), s').
Proof.
  intros s.
  apply (assignment_then_read "x" (String_node "one") s
           (set_statement_count S s) (VStr "one")); [|done].
  exists (VInt 1). by vm_compute.
Defined.

(** X3: A statement that raises leaves the environment exactly as it
    was: a declaration or an assignment that fails stores nothing. *)
Theorem raising_statement_keeps_environment (stmt : Element)
    (s s' : Interpreter) (e : exn) :
  run_stmt stmt s = (Raises e, s') →
  vars s' = vars s.
Proof.
  intros Hstmt. pose proof (run_stmt_vars stmt s) as Hstep.
  destruct Hstep as [Hsame|[(x & -> & Hx & _)|(x & ex & val & -> & Hx & Hins)]].
  - by rewrite Hstmt in Hsame.
  - rewrite run_stmt_def_var, Hx in Hstmt. done.
  - rewrite run_stmt_assign in Hstmt. rewrite run_stmt_assign in Hins.
    destruct Hx as [old Hold]. rewrite Hold in Hstmt, Hins.
    pose proof (frame_vars _ _ (framed_eval ex (set_statement_count S s)))
      as Hvars.
    destruct (eval ex _) as [[val'|e'] s1]; [done|].
    injection Hstmt as _ <-. done.
Qed.

Lemma raising_statement_keeps_environment_witness :
  let s := (run_stmt (Var_def_node "x") (new_Interpreter [])).2 in
  let stmt := Assignment_node "x" (Arith_node Plus (Int_node 1)
                                     (String_node "a")) in
  vars (run_stmt stmt s).2 = vars s.
Proof.
  intros s stmt.
  apply (raising_statement_keeps_environment stmt s (run_stmt stmt s).2
           (InterpreterError TYPE_ERROR
              "Incompatible types for arithmetic operation")).
  by vm_compute.
Defined.



(** *** Runs and their statistics *)

Lemma run_stmt_counts_variables stmt s :
  variable_count s = size (vars s) →
  variable_count (run_stmt stmt s).2 = size (vars (run_stmt stmt s).2).
Proof.
  intros Hinv.
  destruct stmt as [val|val|name|name args|op op1 op2|name|var expression|ty];
    try (rewrite run_stmt_expression by done;
      match goal with |- context [eval ?e ?s0] =>
        pose proof (frame_vars _ _ (framed_eval e s0)) as Hvars;
        pose proof (frame_variable_count _ _ (framed_eval e s0)) as Hcount;
        destruct (eval e s0) as [[?|?] ?]; simpl in *; congruence end).
  - rewrite run_stmt_def_var. destruct (vars s !! name) eqn:Hname; [done|].
    simpl. rewrite map_size_insert_None by done. by rewrite Hinv.
  - rewrite run_stmt_assign. destruct (vars s !! var) eqn:Hvar; [|done].
    pose proof (frame_vars _ _
                  (framed_eval expression (set_statement_count S s))) as Hvars.
    pose proof (frame_variable_count _ _
                  (framed_eval expression (set_statement_count S s))) as Hcount.
    destruct (eval expression _) as [[val|e] s1]; simpl in *; [|congruence].
    rewrite Hvars, Hcount. by rewrite map_size_insert_Some.
Qed.

Lemma for_each_counts_variables stmts s :
  variable_count s = size (vars s) →
  variable_count (for_each run_stmt stmts s).2 =
    size (vars (for_each run_stmt stmts s).2).
Proof.
  revert s. induction stmts as [|stmt rest IH]; intros s Hinv; [done|].
  simpl. unfold bind.
  pose proof (run_stmt_counts_variables stmt s Hinv) as Hstep.
  destruct (run_stmt stmt s) as [[[]|e] s1]; simpl in *; [|done].
  by apply IH.
Qed.

(** Each declaration that returns adds one variable; nothing else does. *)
Lemma runs_in_order_declarations stmts s s' :
  runs_in_order stmts s s' →
  size (vars s') = (size (vars s) + length (filter is_var_def stmts))%nat ∧
  variable_count s' =
    (variable_count s + length (filter is_var_def stmts))%nat.
Proof.
  induction 1 as [|stmt rest s s1 s2 Hstmt _ [IHsize IHcount]]; [simpl; lia|].
  rewrite IHsize, IHcount. clear IHsize IHcount.
  destruct stmt as [val|val|name|name args|op op1 op2|name|var expression|ty];
    try (rewrite run_stmt_expression in Hstmt by done;
      match type of Hstmt with context [eval ?e ?s0] =>
        pose proof (frame_vars _ _ (framed_eval e s0)) as Hvars;
        pose proof (frame_variable_count _ _ (framed_eval e s0)) as Hcount;
        destruct (eval e s0) as [[?|?] ?]; [|done];
        injection Hstmt as <-; simpl in *; rewrite Hvars, Hcount;
        rewrite filter_cons_False by (cbn; auto); lia end).
  - rewrite run_stmt_def_var in Hstmt.
    destruct (vars s !! name) eqn:Hname; [done|]. injection Hstmt as <-.
    rewrite filter_cons_True by (cbn; auto). simpl.
    rewrite map_size_insert_None by done. lia.
  - rewrite run_stmt_assign in Hstmt.
    destruct (vars s !! var) as [old|] eqn:Hvar; [|done].
    pose proof (frame_vars _ _
                  (framed_eval expression (set_statement_count S s))) as Hvars.
    pose proof (frame_variable_count _ _
                  (framed_eval expression (set_statement_count S s))) as Hcount.
    destruct (eval expression _) as [[val|e] s0]; [|done].
    injection Hstmt as <-. simpl in *. rewrite Hvars, Hcount.
    rewrite map_size_insert_Some by done.
    rewrite filter_cons_False by (cbn; auto). lia.
Qed.

(** X5: [run] does not start from a fresh environment: the variables
    stay on the interpreter object.  So when a program that declares a
    variable has run to its end, running it again on the same object
    cannot reach its end; the second run raises. *)
Theorem second_run_on_same_object_raises (ast : Program) (main : Func)
    (v : string) (s s' : Interpreter) :
  find_main ast = Some main →
  Var_def_node v ∈ statements main →
  run ast s = (Returns tt, s') →
  ∃ e s'', run ast s' = (Raises e, s'').
Proof.
  intros Hmain Hdecl Hrun.
  apply run_returns in Hrun as (main' & s1 & Hmain' & Hbody & ->).
  assert (main' = main) as -> by congruence.
  assert (v ∈ dom (vars s1)) as Hv.
  { rewrite (runs_in_order_declared _ _ _ _ Hbody). by right. }
  destruct (run ast (set_is_running false s1)) as [[[]|e] s''] eqn:Hagain;
    [|by exists e, s''].
  exfalso.
  apply run_returns in Hagain as (main' & s2 & Hmain'' & Hbody2 & _).
  assert (main' = main) as -> by congruence.
  apply list_elem_of_split in Hdecl as (before & after & Hsplit).
  rewrite Hsplit in Hbody2.
  apply runs_in_order_app in Hbody2 as (s3 & Hbefore & Hrest).
  inversion Hrest as [|? ? ? s4 ? Hredecl _]; subst.
  rewrite run_stmt_def_var in Hredecl.
  assert (v ∈ dom (vars s3)) as [x Hx]%elem_of_dom.
  { rewrite (runs_in_order_declared _ _ _ _ Hbefore). by left. }
  by rewrite Hx in Hredecl.
Qed.

Lemma second_run_on_same_object_raises_witness :
  let main := mkFunc "main" []
    [Var_def_node "x"; Assignment_node "x" (Int_node 5)] in
  let ast := mkProgram [main] in
  ∃ e s'', run ast (run ast (new_Interpreter [])).2 = (Raises e, s'').
Proof.
  intros main ast.
  apply (second_run_on_same_object_raises ast main "x" (new_Interpreter []));
    [done| |by vm_compute].
  by left.
Defined.

(** X6: The statistics after a run of a program that has a [main]: when
    the run returns, every statement of the body was counted once and the
    running flag is off again; when it raises, at least one statement and
    at most the whole body was counted, and the running flag is left
    on. *)
Theorem statistics_after_run (ast : Program) (main : Func)
    (s : Interpreter) :
  find_main ast = Some main →
  let stats := get_stats (run ast s).2 in
  match (run ast s).1 with
  | Returns _ =>
      statements_executed stats =
        (statement_count s + length (statements main))%nat ∧
      stats_is_running stats = false
  | Raises _ =>
      (statement_count s < statements_executed stats)%nat ∧
      (statements_executed stats ≤
         statement_count s + length (statements main))%nat ∧
      stats_is_running stats = true
  end.
Proof.
  intros Hmain. unfold run. rewrite Hmain. unfold bind, modify.
  destruct (for_each_cases (statements main) (set_is_running true s))
    as [(s' & -> & Hrun)|
        (before & stmt & after & s1 & e & s2 & Hsplit & Hrun & Hstmt & ->)];
    simpl.
  - split; [|done].
    by rewrite (runs_in_order_statement_count _ _ _ Hrun).
  - pose proof (run_stmt_statement_count stmt s1) as Hcount.
    pose proof (run_stmt_channels stmt s1) as [_ Hflag].
    rewrite Hstmt in Hcount, Hflag. simpl in Hcount, Hflag.
    rewrite (runs_in_order_statement_count _ _ _ Hrun) in Hcount.
    destruct (runs_in_order_channels _ _ _ Hrun) as [_ Hflag1].
    simpl in Hcount, Hflag1. rewrite Hsplit, length_app. simpl.
    split_and!; [lia|lia|congruence].
Qed.

Lemma statistics_after_run_witness :
  let main := mkFunc "main" []
    [Fcall_node "print" [String_node "a"];
     Assignment_node "x" (Int_node 1);
     Fcall_node "print" [String_node "b"]] in
  let stats := get_stats (run (mkProgram [main]) (new_Interpreter [])).2 in
  (0 < statements_executed stats)%nat ∧
  (statements_executed stats ≤ 3)%nat ∧
  stats_is_running stats = true.
Proof.
  intros main.
  pose proof (statistics_after_run (mkProgram [main]) main
                (new_Interpreter []) eq_refl) as Hstats.
  assert ((run (mkProgram [main]) (new_Interpreter [])).1 =
          Raises (InterpreterError NAME_ERROR
                    "Variable x has not been defined")) as Hraise
    by (by vm_compute).
  cbv zeta in Hstats. rewrite Hraise in Hstats. exact Hstats.
Defined.

(** X7: The two variable statistics agree for as long as [reset_stats]
    is not called: if the count of variables created equals the number
    of variables stored before a run, it does so after the run, whether
    the run returned or raised. *)
Theorem variables_created_is_variable_count (ast : Program)
    (s : Interpreter) :
  variables_created (get_stats s) = stats_variable_count (get_stats s) →
  variables_created (get_stats (run ast s).2) =
    stats_variable_count (get_stats (run ast s).2).
Proof.
  simpl. intros Hinv. unfold run.
  destruct (find_main ast) as [main|]; [|done]. unfold bind, modify.
  pose proof (for_each_counts_variables (statements main)
                (set_is_running true s) Hinv) as Hfor.
  by destruct (for_each run_stmt _ _) as [[[]|e] s1].
Qed.

Lemma variables_created_is_variable_count_witness :
  let ast := mkProgram [mkFunc "main" []
    [Var_def_node "x"; Var_def_node "y"; Var_def_node "x"]] in
  variables_created (get_stats (run ast (new_Interpreter [])).2) =
    stats_variable_count (get_stats (run ast (new_Interpreter [])).2).
Proof.
  intros ast.
  apply (variables_created_is_variable_count ast (new_Interpreter [])).
  by vm_compute.
Defined.

(** X8: When a run returns, the number of variables stored and the
    count of variables created have both grown by the number of
    declarations in the body of [main]: each declaration made a new
    variable and no other statement did. *)
Theorem declarations_are_counted (ast : Program) (main : Func)
    (s s' : Interpreter) :
  find_main ast = Some main →
  run ast s = (Returns tt, s') →
  let declared := length (filter is_var_def (statements main)) in
  stats_variable_count (get_stats s') =
    (stats_variable_count (get_stats s) + declared)%nat ∧
  variables_created (get_stats s') =
    (variables_created (get_stats s) + declared)%nat.
Proof.
  intros Hmain Hrun.
  apply run_returns in Hrun as (main' & s1 & Hmain' & Hbody & ->).
  assert (main' = main) as -> by congruence.
  apply runs_in_order_declarations in Hbody. done.
Qed.

Lemma declarations_are_counted_witness :
  let main := mkFunc "main" []
    [Var_def_node "x"; Assignment_node "x" (Int_node 5); Var_def_node "y";
     Fcall_node "print" [Qualified_name_node "x"]] in
  let s' := (run (mkProgram [main]) (new_Interpreter [])).2 in
  stats_variable_count (get_stats s') = 2%nat ∧
  variables_created (get_stats s') = 2%nat.
Proof.
  intros main s'.
  apply (declarations_are_counted (mkProgram [main]) main
           (new_Interpreter []) s' eq_refl).
  by vm_compute.
Defined.

(** X9: [reset_stats] zeroes the two counters and nothing else: the
    variables stay.  A run that returns after it reports the statements
    and the declarations of that run alone, while the number of variables
    stored still includes those from before the reset. *)
Theorem reset_stats_then_run (ast : Program) (main : Func)
    (s s' : Interpreter) :
  find_main ast = Some main →
  run ast (reset_stats s).2 = (Returns tt, s') →
  get_stats s' =
    mkStats (length (statements main))
      (length (filter is_var_def (statements main))) false
      (size (vars s) + length (filter is_var_def (statements main))).
Proof.
  intros Hmain Hrun.
  apply run_returns in Hrun as (main' & s1 & Hmain' & Hbody & ->).
  assert (main' = main) as -> by congruence.
  pose proof (runs_in_order_declarations _ _ _ Hbody) as [Hsize Hcount].
  pose proof (runs_in_order_statement_count _ _ _ Hbody) as Hstmts.
  unfold get_stats. simpl in *. by rewrite Hsize, Hcount, Hstmts.
Qed.

Lemma reset_stats_then_run_witness :
  let first := mkProgram [mkFunc "main" [] [Var_def_node "x"]] in
  let main := mkFunc "main" []
    [Var_def_node "y"; Assignment_node "x" (Int_node 1)] in
  let s := (run first (new_Interpreter [])).2 in
  get_stats (run (mkProgram [main]) (reset_stats s).2).2 =
    mkStats 2 1 false 2.
Proof.
  intros first main s.
  apply (reset_stats_then_run (mkProgram [main]) main s _ eq_refl).
  by vm_compute.
Defined.

(** X10: A run never takes back output and never puts back input: the
    output before the run is a prefix of the output after it, and the
    input after it is a suffix of the input before it, whether the run
    returned or raised. *)
Theorem run_appends_output_and_consumes_input (ast : Program)
    (s : Interpreter) :
  output_log s `prefix_of` output_log (run ast s).2 ∧
  inp (run ast s).2 `suffix_of` inp s.
Proof.
  unfold run. destruct (find_main ast) as [main|]; [|done].
  unfold bind, modify.
  destruct (for_each_cases (statements main) (set_is_running true s))
    as [(s' & -> & Hrun)|
        (before & stmt & after & s1 & e & s2 & _ & Hrun & Hstmt & ->)];
    simpl.
  - split; [apply (runs_in_order_output_log _ _ _ Hrun)|].
    apply (runs_in_order_channels _ _ _ Hrun).
  - pose proof (run_stmt_output_log stmt s1) as Hout.
    pose proof (run_stmt_channels stmt s1) as [Hinp _].
    rewrite Hstmt in Hout, Hinp. simpl in Hout, Hinp. split.
    + etrans; [apply (runs_in_order_output_log _ _ _ Hrun)|done].
    + etrans; [done|apply (runs_in_order_channels _ _ _ Hrun)].
Qed.

(** *** Programs that do not read input *)

Lemma reads_nothing_ret {A} (a : A) : reads_nothing (ret a).
Proof. by intros s. Qed.

Lemma reads_nothing_error {A} t d : reads_nothing (@error A t d).
Proof. by intros s. Qed.

Lemma reads_nothing_gets {A} (f : Interpreter → A) : reads_nothing (gets f).
Proof. by intros s. Qed.

Lemma reads_nothing_modify f :
  (∀ s, inp (f s) = inp s) → reads_nothing (modify f).
Proof. intros Hf s. apply Hf. Qed.

Lemma reads_nothing_bind {A B} (m : M A) (k : A → M B) :
  reads_nothing m → (∀ a, reads_nothing (k a)) → reads_nothing (bind m k).
Proof.
  intros Hm Hk s. unfold bind. specialize (Hm s).
  destruct (m s) as [[a|e] s1]; simpl in *; [|done].
  rewrite <- Hm. apply Hk.
Qed.

Lemma reads_nothing_when cond body :
  reads_nothing body → reads_nothing (when cond body).
Proof. intros Hbody. destruct cond; [done|apply reads_nothing_ret]. Qed.

Lemma reads_nothing_output line : reads_nothing (output line).
Proof. by apply reads_nothing_modify. Qed.

Lemma reads_nothing_join_str (ev : Element → M value) args :
  Forall (λ a, reads_nothing (ev a)) args → reads_nothing (join_str ev args).
Proof.
  induction 1 as [|a rest Ha _ IH]; simpl.
  - apply reads_nothing_ret.
  - apply reads_nothing_bind; [done|]. intros v.
    apply reads_nothing_bind; [done|]. intros tail. apply reads_nothing_ret.
Qed.

Lemma reads_nothing_eval expr :
  calls_inputi expr = false → reads_nothing (eval expr).
Proof.
  induction expr as [val|val|name|name args IH|op op1 op2 IH1 IH2|name|var e _|ty]
    using Element_nested_ind; simpl; intros Hno;
    try apply reads_nothing_ret.
  - apply reads_nothing_bind; [apply reads_nothing_gets|]. intros env.
    destruct (env !! name); [apply reads_nothing_ret|apply reads_nothing_error].
  - apply orb_false_elim in Hno as [Hname Hargs].
    apply bool_decide_eq_false in Hname.
    unfold call_func_body. rewrite (decide_False (P := name = "inputi")) by done.
    destruct (decide (name = "print")); [|apply reads_nothing_error].
    apply reads_nothing_bind; [|intros line].
    + apply reads_nothing_join_str.
      rewrite Forall_forall in IH. apply Forall_forall. intros a Ha.
      apply IH; [done|].
      destruct (calls_inputi a) eqn:Hcall; [|done].
      assert (existsb calls_inputi args = true) as Hex; [|congruence].
      apply existsb_exists. exists a. split; [|done].
      by apply list_elem_of_In.
    + apply reads_nothing_bind; [apply reads_nothing_output|].
      intros _. apply reads_nothing_ret.
  - apply orb_false_elim in Hno as [Hno1 Hno2].
    apply reads_nothing_bind; [by apply IH1|]. intros left_val.
    apply reads_nothing_bind; [by apply IH2|]. intros right_val.
    destruct (negb _ || negb _); [apply reads_nothing_error|].
    destruct left_val, right_val, op; apply reads_nothing_ret.
Qed.

Lemma reads_nothing_run_stmt stmt :
  calls_inputi stmt = false → reads_nothing (run_stmt stmt).
Proof.
  intros Hno. unfold run_stmt.
  apply reads_nothing_bind; [by apply reads_nothing_modify|]. intros _.
  destruct stmt as [val|val|name|name args|op op1 op2|name|var expression|ty];
    try (apply reads_nothing_bind; [by apply reads_nothing_eval|];
         intros ?; apply reads_nothing_ret).
  - unfold def_var.
    apply reads_nothing_bind; [apply reads_nothing_gets|]. intros env.
    apply reads_nothing_bind;
      [apply reads_nothing_when, reads_nothing_error|]. intros _.
    apply reads_nothing_bind; by (intros; apply reads_nothing_modify).
  - unfold assign.
    apply reads_nothing_bind; [apply reads_nothing_gets|]. intros env.
    apply reads_nothing_bind;
      [apply reads_nothing_when, reads_nothing_error|]. intros _.
    apply reads_nothing_bind; [by apply reads_nothing_eval|]. intros v.
    by apply reads_nothing_modify.
Qed.

Lemma reads_nothing_for_each stmts :
  Forall (λ stmt, calls_inputi stmt = false) stmts →
  reads_nothing (for_each run_stmt stmts).
Proof.
  induction 1 as [|stmt rest Hstmt _ IH]; simpl.
  - apply reads_nothing_ret.
  - apply reads_nothing_bind; [by apply reads_nothing_run_stmt|]. by intros _.
Qed.

(** X11: A program whose [main] has no call of [inputi] anywhere in its
    body reads no input: after its run, returned or raised, the input is
    the one before it, token for token. *)
Theorem program_without_inputi (ast : Program) (s : Interpreter) :
  (∀ main, find_main ast = Some main →
     Forall (λ stmt, calls_inputi stmt = false) (statements main)) →
  inp (run ast s).2 = inp s.
Proof.
  intros Hbody. revert s. change (reads_nothing (run ast)). unfold run.
  destruct (find_main ast) as [main|]; [|apply reads_nothing_error].
  apply reads_nothing_bind; [by apply reads_nothing_modify|]. intros _.
  apply reads_nothing_bind; [by apply reads_nothing_for_each, Hbody|].
  intros _. by apply reads_nothing_modify.
Qed.

Lemma program_without_inputi_witness :
  let ast := mkProgram [mkFunc "main" []
    [Var_def_node "x";
     Fcall_node "print" [Arith_node Plus (Qualified_name_node "x")
                           (Int_node 1)]]] in
  inp (run ast (new_Interpreter ["1"; "2"])).2 = ["1"; "2"].
Proof.
  intros ast.
  apply (program_without_inputi ast (new_Interpreter ["1"; "2"])).
  intros main [= <-]. by repeat constructor.
Defined.

(** *** Expressions without calls *)

Lemma only_reads_vars_ret {A} (a : A) : only_reads_vars (ret a).
Proof. by intros s. Qed.

Lemma only_reads_vars_bind {A B} (m : M A) (k : A → M B) :
  only_reads_vars m → (∀ a, only_reads_vars (k a)) →
  only_reads_vars (bind m k).
Proof.
  intros Hm Hk s. unfold bind. destruct (Hm s) as [Hsame Hres]. split.
  - destruct (m s) as [[a|e] s1]; simpl in *; subst; [|done]. apply Hk.
  - intros s2 Hvars. specialize (Hres s2 Hvars).
    destruct (Hm s2) as [Hsame2 _].
    destruct (m s) as [[a|e] s1], (m s2) as [[a2|e2] s3]; simpl in *;
      subst; try done.
    + injection Hres as ->. by apply Hk.
    + by injection Hres as ->.
Qed.

Lemma only_reads_vars_eval expr :
  has_call expr = false → only_reads_vars (eval expr).
Proof.
  induction expr as [val|val|name|name args IH|op op1 op2 IH1 IH2|name|var e _|ty]
    using Element_nested_ind; simpl; intros Hno;
    try apply only_reads_vars_ret; try done.
  - intros s. unfold bind, gets. split.
    + by destruct (vars s !! name).
    + intros s2 Hvars. rewrite Hvars. by destruct (vars s !! name).
  - apply orb_false_elim in Hno as [Hno1 Hno2].
    apply only_reads_vars_bind; [by apply IH1|]. intros left_val.
    apply only_reads_vars_bind; [by apply IH2|]. intros right_val.
    destruct (negb _ || negb _); [done|].
    destruct left_val, right_val, op; apply only_reads_vars_ret.
Qed.

(** X12: Evaluating an expression that contains no call leaves the whole
    interpreter object as it was, and its result, value or error, is the
    same on any interpreter with the same environment. *)
Theorem call_free_expression_only_reads_vars (expr : Element)
    (s : Interpreter) :
  has_call expr = false →
  (eval expr s).2 = s ∧
  ∀ s2, vars s2 = vars s → (eval expr s2).1 = (eval expr s).1.
Proof. intros Hno. by apply only_reads_vars_eval. Qed.

Lemma call_free_expression_only_reads_vars_witness :
  let expr := Arith_node Minus (Qualified_name_node "x") (Int_node 1) in
  let s := set_vars (λ _, {["x" := VInt 3]}) (new_Interpreter []) in
  (eval expr s).2 = s ∧
  (eval expr (set_inp (λ _, ["9"]) s)).1 = (eval expr s).1.
Proof.
  intros expr s.
  destruct (call_free_expression_only_reads_vars expr s eq_refl)
    as [Hsame Hres].
  split; [exact Hsame|]. by apply Hres.
Defined.

(** X13: An expression built from integer literals with [+] and [-],
    nested no deeper than [safe_depth], evaluates to the integer it
    stands for, in unbounded arithmetic: it does not raise and leaves the
    interpreter as it was. *)
Theorem literal_arithmetic (expr : Element) (n : Z) (s : Interpreter) :
  literal_value expr = Some n →
  (depth expr ≤ safe_depth)%nat →
  eval expr s = (Returns (VInt n), s).
Proof.
  intros Hlit _. revert n Hlit.
  induction expr as [val|val|name|name args IH|op op1 op2 IH1 IH2|name|var e _|ty]
    using Element_nested_ind; simpl literal_value; intros n Hlit; try done.
  - by injection Hlit as <-.
  - destruct (literal_value op1) as [a|]; [|done].
    destruct (literal_value op2) as [b|]; [|done].
    injection Hlit as <-. rewrite eval_arith.
    by rewrite (IH1 a eq_refl), (IH2 b eq_refl).
Qed.

Lemma literal_arithmetic_witness :
  eval (Arith_node Minus (Arith_node Plus (Int_node 1) (Int_node 2))
          (Arith_node Minus (Int_node 3) (Int_node 4)))
       (new_Interpreter []) =
    (Returns (VInt 4), new_Interpreter []).
Proof.
  apply (literal_arithmetic
           (Arith_node Minus (Arith_node Plus (Int_node 1) (Int_node 2))
              (Arith_node Minus (Int_node 3) (Int_node 4))) 4);
    [done|].
  unfold safe_depth. simpl. lia.
Defined.

(** *** What [print] writes, [inputi] reads back *)

(** X14: What [print] writes for an integer, [inputi] reads back: when
    [e] evaluates to an integer [n] of at most [max_str_digits] digits,
    [print(e)] writes one line, and an [inputi()] whose next token is that
    line returns [n] and consumes that one token. *)
Theorem inputi_reads_back_printed_integer (e : Element) (n : Z)
    (s s1 : Interpreter) :
  eval e s = (Returns (VInt n), s1) →
  within_str_limit (VInt n) →
  ∃ line,
    eval (Fcall_node "print" [e]) s =
      (Returns VNone, set_output_log (λ log, log ++ [line]) s1) ∧
    ∀ s' rest,
      inp s' = line :: rest →
      eval (Fcall_node "inputi" []) s' =
        (Returns (VInt n), set_inp (λ _, rest) s').
Proof.
  intros He Hlimit. exists (str (VInt n)). split.
  - rewrite eval_fcall, call_func_print. simpl join_str. unfold bind.
    rewrite He. unfold ret. by rewrite string_app_nil_r.
  - intros s' rest Hinp. rewrite eval_fcall, call_func_inputi. simpl.
    apply (read_int_token s' (str (VInt n)) rest n); [done|].
    by apply py_int_str.
Qed.

Lemma inputi_reads_back_printed_integer_witness :
  let s := new_Interpreter [] in
  ∃ line,
    eval (Fcall_node "print" [Arith_node Minus (Int_node 3) (Int_node 123)])
      s = (Returns VNone, set_output_log (λ log, log ++ [line]) s) ∧
    ∀ s' rest,
      inp s' = line :: rest →
      eval (Fcall_node "inputi" []) s' =
        (Returns (VInt (-120)), set_inp (λ _, rest) s').
Proof.
  intros s.
  apply (inputi_reads_back_printed_integer
           (Arith_node Minus (Int_node 3) (Int_node 123)) (-120) s s);
    [done|].
  by vm_compute.
Defined.
